(** * Antigravity Phone Connect: the terminal client (tui.js) and the bridge

    A shallow embedding of [src/tui.js]: the HTML-to-text renderer
    ([htmlToText], [decodeEntities]), the chat renderer ([renderChat]) and the
    client's API actions ([refreshSnapshot], [refreshState], [sendMessage],
    [switchMode], the WebSocket message handler and the input submit handler).

    The bridge itself ([server.js]: Target Locator, Element Resolver, Action
    Executor) is not among the sources; the modules [Locator], [Resolver] and
    [Executor] at the end model it from the specification. *)

From Stdlib Require Import List Bool Arith NArith ZArith Lia String Ascii.
Import ListNotations.

Set Implicit Arguments.

(** ** JavaScript strings

    A JavaScript string is a sequence of UTF-16 code units; the regular
    expressions of tui.js carry no [u] flag, so they work code unit by code
    unit. *)

Definition cu := N.
Definition jsstring := list cu.

(** ASCII literals of the source are written [u "..."]. *)
Definition u (s : string) : jsstring :=
  map N_of_ascii (list_ascii_of_string s).

Definition NL : cu := 10%N.        (* '\n' *)
Definition QUOT : cu := 34%N.      (* the double quote *)
Definition BULLET : cu := 8226%N.  (* U+2022, the bullet of list items *)

Fixpoint str_eqb (a b : jsstring) : bool :=
  match a, b with
  | [], [] => true
  | x :: a', y :: b' => N.eqb x y && str_eqb a' b'
  | _, _ => false
  end.

(** [WhiteSpace] and [LineTerminator] code units: what [\s] matches and what
    [String.prototype.trim] strips. *)
Definition is_space (c : cu) : bool :=
  (N.leb 9 c && N.leb c 13) || N.eqb c 32 || N.eqb c 160 || N.eqb c 5760
  || (N.leb 8192 c && N.leb c 8202) || N.eqb c 8232 || N.eqb c 8233
  || N.eqb c 8239 || N.eqb c 8287 || N.eqb c 12288 || N.eqb c 65279.

(** Line terminators: what [.] refuses. *)
Definition is_line_terminator (c : cu) : bool :=
  N.eqb c 10 || N.eqb c 13 || N.eqb c 8232 || N.eqb c 8233.

Definition is_digit (c : cu) : bool := N.leb 48 c && N.leb c 57.

Fixpoint trimStart (s : jsstring) : jsstring :=
  match s with
  | c :: s' => if is_space c then trimStart s' else s
  | [] => []
  end.

Definition trimEnd (s : jsstring) : jsstring := rev (trimStart (rev s)).

Definition trim (s : jsstring) : jsstring := trimEnd (trimStart s).

Fixpoint startsWith (s p : jsstring) : bool :=
  match p, s with
  | [], _ => true
  | x :: p', y :: s' => N.eqb x y && startsWith s' p'
  | _ :: _, [] => false
  end.

(** [s.split('\n')]: always at least one piece. *)
Fixpoint split_nl (s : jsstring) : list jsstring :=
  match s with
  | [] => [[]]
  | c :: s' =>
      if N.eqb c NL then [] :: split_nl s'
      else match split_nl s' with
           | l :: ls => (c :: l) :: ls
           | [] => [[c]]
           end
  end.

(** [a.join('\n')]. *)
Fixpoint join_nl (ls : list jsstring) : jsstring :=
  match ls with
  | [] => []
  | [l] => l
  | l :: ls' => l ++ NL :: join_nl ls'
  end.

(** ** Regular expressions

    The fragment of ECMAScript regular expressions that tui.js uses: literal
    characters, the classes [[^c]], [[\s\S]], [.], [\s] and [\d], quantifiers
    (greedy and lazy) over a single character or class, capture groups,
    alternation and [^]. The matcher is the backtracking matcher of the
    language definition, in continuation-passing style. *)

Inductive cset :=
| One (c : cu)      (* a literal character *)
| Not (c : cu)      (* [^c] *)
| AnyCu             (* [\s\S] *)
| Dot               (* . *)
| Space             (* \s *)
| Digit.            (* \d *)

(** [Canonicalize] under the [i] flag. The patterns compare against ASCII
    characters only, and no code unit above 127 canonicalizes to one below
    128, so the ASCII part of the mapping decides every comparison. *)
Definition canon (c : cu) : cu :=
  if N.leb 97 c && N.leb c 122 then N.sub c 32 else c.

Definition cu_eqb (ic : bool) (a b : cu) : bool :=
  if ic then N.eqb (canon a) (canon b) else N.eqb a b.

Definition member (ic : bool) (p : cset) (c : cu) : bool :=
  match p with
  | One a => cu_eqb ic a c
  | Not a => negb (cu_eqb ic a c)
  | AnyCu => true
  | Dot => negb (is_line_terminator c)
  | Space => is_space c
  | Digit => is_digit c
  end.

Inductive regex :=
| Eps
| Chr (p : cset)
| Seq (r1 r2 : regex)
| Alt (r1 r2 : regex)
| Rep (greedy : bool) (lo : nat) (hi : option nat) (p : cset)
| Grp (i : nat) (r : regex)
| Bol.                                  (* ^ without the m flag *)

(** A literal run of characters. *)
Fixpoint Lit (s : jsstring) : regex :=
  match s with
  | [] => Eps
  | [c] => Chr (One c)
  | c :: s' => Seq (Chr (One c)) (Lit s')
  end.

Fixpoint seqs (rs : list regex) : regex :=
  match rs with
  | [] => Eps
  | [r] => r
  | r :: rs' => Seq r (seqs rs')
  end.

Definition Star (p : cset) : regex := Rep true 0 None p.       (* p*  *)
Definition Plus (p : cset) : regex := Rep true 1 None p.       (* p+  *)
Definition LazyStar (p : cset) : regex := Rep false 0 None p.  (* p*? *)
Definition Opt (p : cset) : regex := Rep true 0 (Some 1) p.    (* p?  *)

(** Captures: group number and captured text, most recent first. *)
Definition caps := list (nat * jsstring).

Fixpoint cap (i : nat) (c : caps) : jsstring :=
  match c with
  | [] => []
  | (j, s) :: c' => if Nat.eqb i j then s else cap i c'
  end.

(** The result of a match: how many code units it spans, and its captures. *)
Definition mres := (nat * caps)%type.
Definition cont := nat -> jsstring -> caps -> option mres.

Definition may_repeat (hi : option nat) : bool :=
  match hi with Some 0 => false | _ => true end.

Definition dec_hi (hi : option nat) : option nat :=
  match hi with Some n => Some (pred n) | None => None end.

(** A quantified class at position [pos] with [s] left to read. Greedy: one
    more character first, then the continuation; lazy: the continuation
    first. *)
Fixpoint rep (ic greedy : bool) (p : cset) (lo : nat) (hi : option nat)
    (pos : nat) (s : jsstring) (c : caps) (k : cont) {struct s} : option mres :=
  match s with
  | [] => match lo with O => k pos [] c | S _ => None end
  | x :: s' =>
      if member ic p x && may_repeat hi then
        if greedy then
          match rep ic greedy p (pred lo) (dec_hi hi) (S pos) s' c k with
          | Some r => Some r
          | None => match lo with O => k pos s c | S _ => None end
          end
        else
          match lo with
          | O => match k pos s c with
                 | Some r => Some r
                 | None => rep ic greedy p 0 (dec_hi hi) (S pos) s' c k
                 end
          | S lo' => rep ic greedy p lo' (dec_hi hi) (S pos) s' c k
          end
      else match lo with O => k pos s c | S _ => None end
  end.

Fixpoint rmatch (ic : bool) (r : regex) (pos : nat) (s : jsstring) (c : caps)
    (k : cont) {struct r} : option mres :=
  match r with
  | Eps => k pos s c
  | Chr p =>
      match s with
      | x :: s' => if member ic p x then k (S pos) s' c else None
      | [] => None
      end
  | Seq r1 r2 =>
      rmatch ic r1 pos s c (fun pos' s' c' => rmatch ic r2 pos' s' c' k)
  | Alt r1 r2 =>
      match rmatch ic r1 pos s c k with
      | Some res => Some res
      | None => rmatch ic r2 pos s c k
      end
  | Rep greedy lo hi p => rep ic greedy p lo hi pos s c k
  | Grp i r1 =>
      rmatch ic r1 pos s c
        (fun pos' s' c' => k pos' s' ((i, firstn (pos' - pos) s) :: c'))
  | Bol => if Nat.eqb pos 0 then k pos s c else None
  end.

(** One attempt at position [pos] of the subject, [s] being what is left of
    it: the length of the match and its captures. *)
Definition exec_at (ic : bool) (r : regex) (pos : nat) (s : jsstring)
    : option mres :=
  rmatch ic r pos s [] (fun pos' _ c => Some (pos' - pos, c)).

(** [re.test(s)] / [s.match(re)] being non-null, for a regex without [g]. *)
Fixpoint search_from (ic : bool) (r : regex) (pos : nat) (s : jsstring)
    : bool :=
  match exec_at ic r pos s with
  | Some _ => true
  | None => match s with
            | [] => false
            | _ :: s' => search_from ic r (S pos) s'
            end
  end.

Definition matches (ic : bool) (r : regex) (s : jsstring) : bool :=
  search_from ic r 0 s.

(** [s.replace(re, f)] with the [g] flag: [f] receives the matched text and
    the captures. [skip] counts the code units of the current match that are
    still to be passed over. After an empty match the scan moves on by one
    code unit, which it copies. *)
Fixpoint replace_go (ic : bool) (r : regex) (f : jsstring -> caps -> jsstring)
    (pos skip : nat) (s : jsstring) {struct s} : jsstring :=
  match s with
  | [] =>
      match skip with
      | S _ => []
      | O => match exec_at ic r pos [] with
             | Some (_, c) => f [] c
             | None => []
             end
      end
  | x :: s' =>
      match skip with
      | S n => replace_go ic r f (S pos) n s'
      | O =>
          match exec_at ic r pos s with
          | Some (O, c) => f [] c ++ x :: replace_go ic r f (S pos) 0 s'
          | Some (S n, c) => f (firstn (S n) s) c ++ replace_go ic r f (S pos) n s'
          | None => x :: replace_go ic r f (S pos) 0 s'
          end
      end
  end.

Definition replace_fn (ic : bool) (r : regex) (f : jsstring -> caps -> jsstring)
    (s : jsstring) : jsstring :=
  replace_go ic r f 0 0 s.

(** Replacement templates: text with [$n] references. *)
Inductive tpl_item :=
| T (s : jsstring)
| G (n : nat).

Fixpoint expand (t : list tpl_item) (c : caps) : jsstring :=
  match t with
  | [] => []
  | T s :: t' => s ++ expand t' c
  | G n :: t' => cap n c ++ expand t' c
  end.

Definition replace_tpl (ic : bool) (r : regex) (t : list tpl_item)
    (s : jsstring) : jsstring :=
  replace_fn ic r (fun _ c => expand t c) s.

(** ** decodeEntities and htmlToText (tui.js, lines 100-168) *)

Definition ch (a : ascii) : cu := N_of_ascii a.

Definition lit (s : string) : regex := Lit (u s).

(** [parseInt(n)] on a run of decimal digits: the mathematical value ... *)
Definition digits_value (s : jsstring) : N :=
  fold_left (fun acc d => (10 * acc + (d - 48))%N) s 0%N.

(** ... rounded to the nearest Number (binary64, ties to even); [None] is
    [Infinity]. Integers below 2^53 are exact. *)
Definition to_number (n : N) : option N :=
  if (n <? 2 ^ 53)%N then Some n
  else
    let e := (N.log2 n - 52)%N in
    let q := N.shiftr n e in
    let r := (n - N.shiftl q e)%N in
    let half := (2 ^ (e - 1))%N in
    let q' := if (half <? r)%N || ((r =? half)%N && N.odd q)
              then (q + 1)%N else q in
    let v := N.shiftl q' e in
    if (2 ^ 1024 <=? v)%N then None else Some v.

(** [String.fromCharCode(x)]: [ToUint16], which sends [Infinity] to 0. *)
Definition fromCharCode (x : option N) : jsstring :=
  match x with
  | Some v => [(v mod 65536)%N]
  | None => [0%N]
  end.

Definition decodeEntities (str : jsstring) : jsstring :=
  let s1 := replace_tpl false (lit "&amp;") [T (u "&")] str in
  let s2 := replace_tpl false (lit "&lt;") [T (u "<")] s1 in
  let s3 := replace_tpl false (lit "&gt;") [T (u ">")] s2 in
  let s4 := replace_tpl false (lit "&quot;") [T [QUOT]] s3 in
  let s5 := replace_tpl false (lit "&#39;") [T (u "'")] s4 in
  let s6 := replace_tpl false (lit "&nbsp;") [T (u " ")] s5 in
  replace_fn false (seqs [lit "&#"; Grp 1 (Plus Digit); lit ";"])
    (fun _ c => fromCharCode (to_number (digits_value (cap 1 c)))) s6.

(** [/<[^>]+>/g], replaced by the empty string. *)
Definition tag_re : regex :=
  seqs [lit "<"; Plus (Not (ch ">")); lit ">"].

Definition strip_tags (s : jsstring) : jsstring :=
  replace_tpl false tag_re [] s.

(** The fence callback of the two code-block replacements. *)
Definition fence (code : jsstring) : jsstring :=
  let decoded := decodeEntities (strip_tags code) in
  (NL :: u "```") ++ [NL] ++ trim decoded ++ (NL :: u "```") ++ [NL].

(** [/<TAG[^>]*>(.*?)<\/TAG>/gi] *)
Definition inline_re (tag : string) : regex :=
  seqs [lit "<"; lit tag; Star (Not (ch ">")); lit ">";
        Grp 1 (LazyStar Dot); lit "</"; lit tag; lit ">"].

(** [/<TAG[^>]*>([\s\S]*?)<\/TAG>/gi] *)
Definition block_re (tag : string) : regex :=
  seqs [lit "<"; lit tag; Star (Not (ch ">")); lit ">";
        Grp 1 (LazyStar AnyCu); lit "</"; lit tag; lit ">"].

(** [/<pre[^>]*><code[^>]*>([\s\S]*?)<\/code><\/pre>/gi] *)
Definition pre_code_re : regex :=
  seqs [lit "<pre"; Star (Not (ch ">")); lit "><code"; Star (Not (ch ">"));
        lit ">"; Grp 1 (LazyStar AnyCu); lit "</code></pre>"].

(** [/<br\s*\/?>/gi] *)
Definition br_re : regex :=
  seqs [lit "<br"; Star Space; Opt (One (ch "/")); lit ">"].

(** The link pattern of line 144: [<a], any run without [>], [href=], a
    double quote, group 1 (a greedy run without double quotes), a double
    quote, any run without [>], [>], group 2 (a lazy run of [.]), [</a>];
    flags [gi]. *)
Definition link_re : regex :=
  seqs [lit "<a"; Star (Not (ch ">")); lit "href="; Chr (One QUOT);
        Grp 1 (Star (Not QUOT)); Chr (One QUOT); Star (Not (ch ">")); lit ">";
        Grp 2 (LazyStar Dot); lit "</a>"].

(** [/\n{3,}/g] *)
Definition nl3_re : regex := Rep true 3 None (One NL).

(** The blockquote callback:
    [q.replace(/<[^>]+>/g, '').split('\n').map(l => '  > ' + l.trim()).join('\n') + '\n'] *)
Definition quote_lines (q : jsstring) : jsstring :=
  join_nl (map (fun l => u "  > " ++ trim l) (split_nl (strip_tags q))) ++ [NL].

(** The steps of [htmlToText] after [if (!html) return ''], in order. *)
Definition convert (html : jsstring) : jsstring :=
  let text := html in
  (* Preserve code blocks *)
  let text := replace_fn true pre_code_re (fun _ c => fence (cap 1 c)) text in
  let text := replace_fn true (block_re "pre") (fun _ c => fence (cap 1 c)) text in
  (* Inline code *)
  let text := replace_fn true (inline_re "code")
                (fun _ c => u "`" ++ decodeEntities (strip_tags (cap 1 c)) ++ u "`")
                text in
  (* Headers *)
  let text := replace_tpl true (inline_re "h1") [T (NL :: u "# "); G 1; T [NL]] text in
  let text := replace_tpl true (inline_re "h2") [T (NL :: u "## "); G 1; T [NL]] text in
  let text := replace_tpl true (inline_re "h3") [T (NL :: u "### "); G 1; T [NL]] text in
  let text := replace_tpl true (inline_re "h4") [T (NL :: u "#### "); G 1; T [NL]] text in
  (* Lists *)
  let text := replace_tpl true (inline_re "li")
                [T (u "  " ++ [BULLET] ++ u " "); G 1; T [NL]] text in
  (* Line breaks *)
  let text := replace_tpl true br_re [T [NL]] text in
  let text := replace_tpl true (lit "</p>") [T [NL]] text in
  let text := replace_tpl true (lit "</div>") [T [NL]] text in
  let text := replace_tpl true (lit "</tr>") [T [NL]] text in
  (* Blockquote *)
  let text := replace_fn true (block_re "blockquote")
                (fun _ c => quote_lines (cap 1 c)) text in
  (* Bold/italic *)
  let text := replace_tpl true (inline_re "strong") [T (u "*"); G 1; T (u "*")] text in
  let text := replace_tpl true (inline_re "b") [T (u "*"); G 1; T (u "*")] text in
  let text := replace_tpl true (inline_re "em") [T (u "_"); G 1; T (u "_")] text in
  (* Links *)
  let text := replace_tpl true link_re [G 2; T (u " ("); G 1; T (u ")")] text in
  (* Strip remaining tags *)
  let text := strip_tags text in
  (* Decode entities *)
  let text := decodeEntities text in
  (* Clean up whitespace *)
  let text := replace_tpl false nl3_re [T [NL; NL]] text in
  trim text.

(** The argument of [htmlToText] is the [html] field of a snapshot: a string,
    or nothing ([undefined], [null]), written [None]. [!html] holds of
    nothing and of the empty string. *)
Definition htmlToText (html : option jsstring) : jsstring :=
  match html with
  | None => []
  | Some [] => []
  | Some h => convert h
  end.

(** ** JavaScript values

    What [JSON.parse] returns (and [undefined], what reading a missing
    property gives). Numbers are only ever tested for truthiness by the
    client; the integer-valued ones are kept. *)

#[local] Set Warnings "-register-all".

Inductive value :=
| VUndef
| VNull
| VBool (b : bool)
| VNum (z : Z)
| VStr (s : jsstring)
| VArr (items : list value)
| VObj (fields : list (jsstring * value)).

(** [ToBoolean]. *)
Definition truthy (v : value) : bool :=
  match v with
  | VUndef | VNull => false
  | VBool b => b
  | VNum z => negb (Z.eqb z 0)
  | VStr s => match s with [] => false | _ => true end
  | VArr _ | VObj _ => true
  end.

(** An object built by [JSON.parse] keeps the last of several members with
    the same name. *)
Fixpoint lookup (k : jsstring) (fields : list (jsstring * value))
    : option value :=
  match fields with
  | [] => None
  | (k', v) :: rest =>
      match lookup k rest with
      | Some w => Some w
      | None => if str_eqb k k' then Some v else None
      end
  end.

(** [v.k] for the property names the client reads ([html], [error], [mode],
    [model], [success], [type], [cdpConnected]): none of them is an own or
    inherited property
    of a string, a number, a boolean or an array, so only objects can hold
    a value there. [None] is the [TypeError] of reading a property of [null] or
    [undefined]. *)
Definition prop (v : value) (k : string) : option value :=
  match v with
  | VUndef | VNull => None
  | VObj fields =>
      match lookup (u k) fields with
      | Some w => Some w
      | None => Some VUndef
      end
  | _ => Some VUndef
  end.

(** [v === 'literal'] *)
Definition is_str (v : value) (s : string) : bool :=
  match v with
  | VStr t => str_eqb t (u s)
  | _ => false
  end.

(** [v !== false] *)
Definition not_false (v : value) : bool :=
  match v with
  | VBool false => false
  | _ => true
  end.

(** [v || d] *)
Definition or_else (v d : value) : value := if truthy v then v else d.

(** ** The client: state and effects (tui.js, lines 279-302) *)

(** What [chatBox.setContent] was last given: the coloured chat text, or one
    of the three fixed notices. *)
Inductive content :=
| Text (s : jsstring)
| Connecting                 (* main: Connecting to Antigravity Phone Connect... *)
| Waiting (err : value)      (* refreshSnapshot: snap.error, waiting for a chat *)
| CannotConnect.             (* refreshSnapshot: cannot connect to server *)

Record state := mkState {
  currentMode : value;
  currentModel : value;
  connected : bool;
  cdpConnected : value;
  lastChatText : jsstring;
  chatContent : content
}.

Definition init : state :=
  {| currentMode := VStr (u "Unknown");
     currentModel := VStr (u "Unknown");
     connected := false;
     cdpConnected := VBool false;
     lastChatText := [];
     chatContent := Text [] |}.

Definition set_mode (v : value) (st : state) : state :=
  mkState v (currentModel st) (connected st) (cdpConnected st)
          (lastChatText st) (chatContent st).

Definition set_model (v : value) (st : state) : state :=
  mkState (currentMode st) v (connected st) (cdpConnected st)
          (lastChatText st) (chatContent st).

Definition set_connected (b : bool) (st : state) : state :=
  mkState (currentMode st) (currentModel st) b (cdpConnected st)
          (lastChatText st) (chatContent st).

Definition set_cdp (v : value) (st : state) : state :=
  mkState (currentMode st) (currentModel st) (connected st) v
          (lastChatText st) (chatContent st).

Definition set_chat (text : jsstring) (c : content) (st : state) : state :=
  mkState (currentMode st) (currentModel st) (connected st) (cdpConnected st)
          text c.

Definition set_content (c : content) (st : state) : state :=
  mkState (currentMode st) (currentModel st) (connected st) (cdpConnected st)
          (lastChatText st) c.

(** The requests of [apiGet] and [apiPost]. *)
Inductive request :=
| Get (path : string)
| Post (path : string) (body : value).

(** What the awaited promise does: it rejects (network error), or resolves
    with the parsed body (the raw string when the body is not JSON). *)
Inductive reply :=
| Rejected
| Resolved (v : value).

Inductive exn :=
| NetworkError
| TypeError.

(** The messages of [showFeedback], which shows the message in the feedback
    bar, renders, and clears the bar three seconds later. *)
Inductive feedback :=
| FSending
| FSent
| FSendFailed (detail : value)      (* 'Send failed: ' + (res.error || 'unknown') *)
| FSendError (e : exn)              (* 'Send error: ' + e.message *)
| FSwitching (newMode : jsstring)
| FMode (newMode : jsstring)
| FFailed (detail : value)          (* res.error || 'Failed' *)
| FError (e : exn).                 (* e.message *)

Inductive callback :=
| CbRefreshSnapshot.

Inductive effect :=
| ShowFeedback (m : feedback) (color : string)
| UpdateStatus                      (* updateStatus() *)
| ScrollPerc (p : nat)              (* chatBox.setScrollPerc(p) *)
| Render                            (* screen.render() *)
| SetTimeout (cb : callback) (ms : nat)
| ClearValue                        (* inputBox.clearValue() *)
| FocusInput.                       (* inputBox.focus() *)

(** An async function of the client runs to its [await], where it leaves a
    request, and is resumed with the reply in the state of that later moment;
    each of them awaits at most once. *)
Inductive outcome :=
| Finished (st : state) (effs : list effect)
| Awaiting (st : state) (effs : list effect) (req : request)
           (resume : reply -> state -> state * list effect).

Definition request_of (o : outcome) : option request :=
  match o with
  | Finished _ _ => None
  | Awaiting _ _ req _ => Some req
  end.

Definition state_of (o : outcome) : state :=
  match o with
  | Finished st _ => st
  | Awaiting st _ _ _ => st
  end.

Definition effects_of (o : outcome) : list effect :=
  match o with
  | Finished _ effs => effs
  | Awaiting _ effs _ _ => effs
  end.

(** ** renderChat (tui.js, lines 305-337) *)

(** [/^(You|Human|User)\s*:/i] *)
Definition user_re : regex :=
  seqs [Bol; Grp 1 (Alt (lit "You") (Alt (lit "Human") (lit "User")));
        Star Space; lit ":"].

Definition color_line (line : jsstring) : jsstring :=
  if matches true user_re line then
    u "{cyan-fg}{bold}" ++ line ++ u "{/}"
  else if startsWith line (u "```") then
    u "{yellow-fg}" ++ line ++ u "{/}"
  else if startsWith line (u "#") then
    u "{green-fg}{bold}" ++ line ++ u "{/}"
  else if startsWith (trimStart line) [BULLET] then
    u "{white-fg}" ++ line ++ u "{/}"
  else line.

Definition colorize (text : jsstring) : jsstring :=
  join_nl (map color_line (split_nl text)).

Definition renderChat (html : option jsstring) (st : state)
    : state * list effect :=
  let text := htmlToText html in
  if str_eqb text (lastChatText st) then (st, [])
  else (set_chat text (Text (colorize text)) st, [ScrollPerc 100; Render]).

(** ** API actions (tui.js, lines 340-436) *)

(** The [catch] branch of [refreshSnapshot], followed by [updateStatus]. *)
Definition snapshot_failed (st : state) : state * list effect :=
  (set_content CannotConnect (set_connected false st), [Render; UpdateStatus]).

(** [refreshSnapshot] after [await apiGet('/snapshot')]. A truthy [snap.html]
    that is not a string has no [replace] method: [htmlToText] throws a
    [TypeError] before anything is changed, and the [catch] branch runs. *)
Definition refreshSnapshot_resume (r : reply) (st : state)
    : state * list effect :=
  match r with
  | Rejected => snapshot_failed st
  | Resolved snap =>
      match prop snap "html" with
      | None => snapshot_failed st
      | Some h =>
          if truthy h then
            match h with
            | VStr s =>
                let (st1, effs) := renderChat (Some s) st in
                (set_connected true st1, effs ++ [UpdateStatus])
            | _ => snapshot_failed st
            end
          else
            match prop snap "error" with
            | None => snapshot_failed st
            | Some e =>
                if truthy e then
                  (set_connected true (set_content (Waiting e) st),
                   [Render; UpdateStatus])
                else (set_connected true st, [UpdateStatus])
            end
      end
  end.

Definition refreshSnapshot (st : state) : outcome :=
  Awaiting st [] (Get "/snapshot") refreshSnapshot_resume.

(** [refreshState] after [await apiGet('/app-state')]; its [catch] ignores
    the error. *)
Definition refreshState_resume (r : reply) (st : state)
    : state * list effect :=
  match r with
  | Rejected => (st, [])
  | Resolved s =>
      match prop s "mode" with
      | None => (st, [])
      | Some mode =>
          let st1 := if truthy mode && negb (is_str mode "Unknown")
                     then set_mode mode st else st in
          match prop s "model" with
          | None => (st, [])
          | Some model =>
              let st2 := if truthy model && negb (is_str model "Unknown")
                         then set_model model st1 else st1 in
              (st2, [UpdateStatus])
          end
      end
  end.

Definition refreshState (st : state) : outcome :=
  Awaiting st [] (Get "/app-state") refreshState_resume.

(** [refreshHealth] after [await apiGet('/health')]:
    [cdpConnected = h.cdpConnected || false]; on any error both flags drop. *)
Definition refreshHealth_resume (r : reply) (st : state)
    : state * list effect :=
  match r with
  | Rejected =>
      (set_cdp (VBool false) (set_connected false st), [UpdateStatus])
  | Resolved h =>
      match prop h "cdpConnected" with
      | None =>
          (set_cdp (VBool false) (set_connected false st), [UpdateStatus])
      | Some v => (set_cdp (or_else v (VBool false)) st, [UpdateStatus])
      end
  end.

Definition refreshHealth (st : state) : outcome :=
  Awaiting st [] (Get "/health") refreshHealth_resume.

Definition sendMessage_resume (r : reply) (st : state)
    : state * list effect :=
  match r with
  | Rejected => (st, [ShowFeedback (FSendError NetworkError) "red"])
  | Resolved res =>
      match prop res "success" with
      | None => (st, [ShowFeedback (FSendError TypeError) "red"])
      | Some ok =>
          if truthy ok then
            (st, [ShowFeedback FSent "green";
                  SetTimeout CbRefreshSnapshot 500;
                  SetTimeout CbRefreshSnapshot 1500])
          else
            match prop res "error" with
            | None => (st, [ShowFeedback (FSendError TypeError) "red"])
            | Some err =>
                (st, [ShowFeedback
                        (FSendFailed (or_else err (VStr (u "unknown"))))
                        "red"])
            end
      end
  end.

Definition sendMessage (text : jsstring) (st : state) : outcome :=
  match trim text with
  | [] => Finished st []
  | _ :: _ =>
      Awaiting st [ShowFeedback FSending "yellow"]
        (Post "/send" (VObj [(u "message", VStr text)]))
        sendMessage_resume
  end.

Definition switchMode_resume (newMode : jsstring) (r : reply) (st : state)
    : state * list effect :=
  match r with
  | Rejected => (st, [ShowFeedback (FError NetworkError) "red"])
  | Resolved res =>
      match prop res "success" with
      | None => (st, [ShowFeedback (FError TypeError) "red"])
      | Some ok =>
          if not_false ok then
            (set_mode (VStr newMode) st,
             [ShowFeedback (FMode newMode) "green"; UpdateStatus])
          else
            match prop res "error" with
            | None => (st, [ShowFeedback (FError TypeError) "red"])
            | Some err =>
                (st, [ShowFeedback
                        (FFailed (or_else err (VStr (u "Failed")))) "red"])
            end
      end
  end.

Definition switchMode (st : state) : outcome :=
  let newMode := if is_str (currentMode st) "Fast"
                 then u "Planning" else u "Fast" in
  Awaiting st [ShowFeedback (FSwitching newMode) "yellow"]
    (Post "/set-mode" (VObj [(u "mode", VStr newMode)]))
    (switchMode_resume newMode).

(** ** The WebSocket message handler (tui.js, lines 541-548)

    [parsed] is what [JSON.parse(data.toString())] gives, [None] when it
    throws; the handler's [catch] ignores every error. *)
Definition on_ws_message (parsed : option value) (st : state) : outcome :=
  match parsed with
  | None => Finished st []
  | Some msg =>
      match prop msg "type" with
      | None => Finished st []
      | Some t =>
          if is_str t "snapshot_update" then refreshSnapshot st
          else Finished st []
      end
  end.

(** ** The submit handler of the input box (tui.js, lines 590-597) *)

(** The argument with which the handler calls [sendMessage], if it does. *)
Definition submit_call (v : jsstring) : option jsstring :=
  match trim v with
  | [] => None
  | t => Some t
  end.

Definition after_submit : list effect := [ClearValue; FocusInput; Render].

Definition on_submit (v : jsstring) (st : state) : outcome :=
  match submit_call v with
  | None => Finished st after_submit
  | Some t =>
      match sendMessage t st with
      | Finished st' effs => Finished st' (effs ++ after_submit)
      | Awaiting st' effs req k => Awaiting st' (effs ++ after_submit) req k
      end
  end.

(** ** Command line (tui.js, lines 35-40) *)

(** [args.indexOf(x)]: the first index that holds [x]. *)
Fixpoint indexOf (x : jsstring) (args : list jsstring) : option nat :=
  match args with
  | [] => None
  | a :: rest =>
      if str_eqb a x then Some 0 else option_map S (indexOf x rest)
  end.

(** The template [--${name}]. *)
Definition flag (name : jsstring) : jsstring := u "--" ++ name.

(** [getArg(name, def)] over the arguments [args]: the argument after the
    first [--name] when there is one and it is not empty, else [def]. *)
Definition getArg (args : list jsstring) (name def : jsstring) : jsstring :=
  match indexOf (flag name) args with
  | None => def
  | Some i =>
      match nth_error args (S i) with
      | Some (c :: v) => c :: v
      | _ => def
      end
  end.

(** [hasFlag(name)]: [args.includes('--' + name)]. *)
Definition hasFlag (args : list jsstring) (name : jsstring) : bool :=
  existsb (fun a => str_eqb a (flag name)) args.

(** ** showModelPicker (tui.js, lines 438-481) *)

Definition models : list jsstring :=
  [u "Gemini 3.1 Pro (High)";
   u "Gemini 3.1 Pro (Low)";
   u "Gemini 3 Flash";
   u "Claude Sonnet 4.6 (Thinking)";
   u "Claude Opus 4.6 (Thinking)";
   u "GPT-OSS 120B (Medium)"].

Definition CIRCLE : cu := 9679%N.  (* U+25CF, the mark of the current model *)

(** [m === currentModel] *)
Definition is_model (v : value) (m : jsstring) : bool :=
  match v with
  | VStr t => str_eqb m t
  | _ => false
  end.

(** The items given to [modal.setItems]. *)
Definition picker_item (v : value) (m : jsstring) : jsstring :=
  if is_model v m then u "{green-fg}" ++ CIRCLE :: u " " ++ m ++ u "{/}"
  else u "  " ++ m.

Definition picker_items (st : state) : list jsstring :=
  map (picker_item (currentModel st)) models.

(** What the picker does to the modal, the input box and the bars. *)
Inductive modal_effect :=
| MSetLabel                          (* modal.setLabel(' Select Model ') *)
| MSetItems (items : list jsstring)  (* modal.setItems(...) *)
| MShow                              (* modal.show() *)
| MFocus                             (* modal.focus() *)
| MHide                              (* modal.hide() *)
| MFocusInput                        (* inputBox.focus() *)
| MRender                            (* screen.render() *)
| MOnce (event : string)             (* modal.once(event, ...) *)
| MKey                               (* modal.key(['escape', 'q'], ...) *)
| MRemoveAllListeners (event : string)
| MSwitching (model : value)         (* showFeedback: Switching to ${model}... *)
| MModel (model : value)             (* showFeedback: Model: ${model} *)
| MError                             (* showFeedback: e.message *)
| MUpdateStatus.                     (* updateStatus() *)

(** [showModelPicker] up to the promise it returns. *)
Definition showModelPicker (st : state) : list modal_effect :=
  [MSetLabel; MSetItems (picker_items st); MShow; MFocus; MRender;
   MOnce "select"; MOnce "cancel"; MKey].

(** The [cleanup] of the picker. *)
Definition picker_cleanup : list modal_effect :=
  [MHide; MFocusInput; MRender;
   MRemoveAllListeners "select"; MRemoveAllListeners "cancel"].

(** [models[idx]], [undefined] beyond the list. *)
Definition model_at (idx : nat) : value :=
  match nth_error models idx with
  | Some m => VStr m
  | None => VUndef
  end.

(** The [select] handler up to [await apiPost('/set-model', { model })];
    the body is the object handed to [apiPost]. *)
Definition picker_select (idx : nat) : list modal_effect * request :=
  (picker_cleanup ++ [MSwitching (model_at idx)],
   Post "/set-model" (VObj [(u "model", model_at idx)])).

(** The [select] handler after the [await]: the reply is not looked at. *)
Definition picker_select_resume (idx : nat) (r : reply) (st : state)
    : state * list modal_effect :=
  match r with
  | Rejected => (st, [MError])
  | Resolved _ =>
      (set_model (model_at idx) st, [MModel (model_at idx); MUpdateStatus])
  end.

(** The [cancel] handler. *)
Definition picker_cancel : list modal_effect := picker_cleanup.

(** * The bridge, from the specification

    [server.js] is not among the sources. The three modules below follow
    sections 4.1, 4.4 and 4.5 of the specification. *)

Module Locator.

(** Modelled from the spec: the Target of section 3 (server.js is missing):
    identifier, human-readable title, connection address. *)
Record Target := mkTarget {
  target_id : string;
  target_title : string;
  target_address : string
}.

(** Modelled from the spec: what one candidate endpoint answers to the
    metadata request of section 4.1 (server.js is missing): nothing, an
    answer that is not a well-formed target list, or a target list. *)
Inductive probe_result :=
| Unreachable
| Malformed
| TargetList (ts : list Target).

(** Modelled from the spec: the result of [locate] (section 4.1; server.js is
    missing). *)
Inductive located :=
| NoTargetFound
| Located (port : N) (t : Target).

(** Modelled from the spec: the target an endpoint's answer offers, the
    first of its list that passes the title/type filter (section 4.1;
    server.js is missing). *)
Definition offer (filter : Target -> bool) (r : probe_result)
    : option Target :=
  match r with
  | TargetList ts => find filter ts
  | _ => None
  end.

(** Modelled from the spec: [locate(candidatePorts)] of section 4.1
    (server.js is missing): probe the candidates in order, select the first
    endpoint that answers with a well-formed target list holding a target
    that matches the filter; [NoTargetFound] when none does. *)
Fixpoint locate (probe : N -> probe_result) (filter : Target -> bool)
    (candidatePorts : list N) : located :=
  match candidatePorts with
  | [] => NoTargetFound
  | p :: ps =>
      match offer filter (probe p) with
      | Some t => Located p t
      | None => locate probe filter ps
      end
  end.

End Locator.

Module Resolver.

(** Modelled from the spec: a visible element of the target as the search
    routine of section 4.4 sees it (server.js is missing): its remote
    handle, tag, attributes, text, rendered size and hidden flag. Elements
    are listed in document order. *)
Record Element := mkElement {
  handle : nat;
  tag : string;
  attrs : list (string * string);
  text : string;
  width : N;
  height : N;
  hidden : bool
}.

(** Modelled from the spec: the heuristic signals of a RoleDescriptor
    (section 3; server.js is missing). *)
Inductive Signal :=
| RequiredText (frag : string)      (* case-insensitive substring *)
| ForbiddenText (frag : string)     (* disqualifies *)
| TagPattern (t : string)           (* tag hint *)
| AttrPattern (name frag : string)  (* attribute pattern *)
| Visible                           (* non-zero rendered size, not hidden *)
| Clickable.                        (* looks like a clickable button *)

(** Modelled from the spec: the RoleDescriptor of section 3 (server.js is
    missing): a role name, weighted signals, minimum size and the
    minimum-score threshold. *)
Record RoleDescriptor := mkRole {
  role : string;
  signals : list (Signal * Z);
  min_width : N;
  min_height : N;
  min_score : Z
}.

(** Modelled from the spec: the Candidate of section 3 (server.js is
    missing): a remote handle and the score that ranked it. *)
Record Candidate := mkCandidate {
  cand_handle : nat;
  cand_score : Z
}.

(** Modelled from the spec: the result of [resolve] (section 4.4; server.js
    is missing). *)
Inductive resolved :=
| NotFound
| Found (c : Candidate).

Definition lower (a : ascii) : ascii :=
  let n := nat_of_ascii a in
  if (65 <=? n)%nat && (n <=? 90)%nat then ascii_of_nat (n + 32) else a.

Fixpoint lowercase (s : string) : string :=
  match s with
  | EmptyString => EmptyString
  | String a s' => String (lower a) (lowercase s')
  end.

Fixpoint contains (frag s : string) : bool :=
  String.prefix frag s ||
  match s with
  | EmptyString => false
  | String _ s' => contains frag s'
  end.

(** Case-insensitive substring. *)
Definition contains_ci (frag s : string) : bool :=
  contains (lowercase frag) (lowercase s).

Fixpoint attr (name : string) (l : list (string * string)) : option string :=
  match l with
  | [] => None
  | (n, v) :: l' => if String.eqb n name then Some v else attr name l'
  end.

(** Modelled from the spec: when an element matches a signal (section 4.4;
    server.js is missing). *)
Definition signal_matches (r : RoleDescriptor) (s : Signal) (e : Element)
    : bool :=
  match s with
  | RequiredText frag => contains_ci frag (text e)
  | ForbiddenText frag => contains_ci frag (text e)
  | TagPattern t => String.eqb (lowercase t) (lowercase (tag e))
  | AttrPattern name frag =>
      match attr name (attrs e) with
      | Some v => contains_ci frag v
      | None => false
      end
  | Visible =>
      negb (hidden e) && N.ltb 0 (width e) && N.ltb 0 (height e)
      && N.leb (min_width r) (width e) && N.leb (min_height r) (height e)
  | Clickable =>
      String.eqb (lowercase (tag e)) "button"
      || match attr "role" (attrs e) with
         | Some v => String.eqb (lowercase v) "button"
         | None => false
         end
  end.

Definition is_forbidden (s : Signal) : bool :=
  match s with
  | ForbiddenText _ => true
  | _ => false
  end.

(** Modelled from the spec: any forbidden-signal match disqualifies the
    element outright (section 4.4; server.js is missing). *)
Definition disqualified (r : RoleDescriptor) (e : Element) : bool :=
  existsb (fun sw => is_forbidden (fst sw) && signal_matches r (fst sw) e)
          (signals r).

(** Modelled from the spec: the score, the weighted sum of the matching
    signals (section 4.4; server.js is missing). *)
Definition score (r : RoleDescriptor) (e : Element) : Z :=
  fold_right
    (fun sw acc =>
       if negb (is_forbidden (fst sw)) && signal_matches r (fst sw) e
       then (snd sw + acc)%Z else acc)
    0%Z (signals r).

(** Modelled from the spec: an element clears the threshold when its score
    reaches the minimum score of the descriptor (section 4.4; server.js is
    missing). *)
Definition clears (r : RoleDescriptor) (e : Element) : bool :=
  Z.leb (min_score r) (score r e).

Definition eligible (r : RoleDescriptor) (e : Element) : bool :=
  negb (disqualified r e) && clears r e.

(** Modelled from the spec: the best element so far, in document order; a
    later element replaces it only with a strictly higher score, so that the
    first match wins a tie (section 4.4; server.js is missing). *)
Definition better (r : RoleDescriptor) (best : option Element) (e : Element)
    : option Element :=
  if eligible r e then
    match best with
    | None => Some e
    | Some b => if Z.ltb (score r b) (score r e) then Some e else Some b
    end
  else best.

Definition pick (r : RoleDescriptor) (els : list Element) : option Element :=
  fold_left (better r) els None.

(** Modelled from the spec: [resolve(role)] of section 4.4 (server.js is
    missing): the highest-scoring element that is not disqualified and
    clears the threshold, the first in document order among equals;
    [NotFound] when there is none. *)
Definition resolve (r : RoleDescriptor) (els : list Element) : resolved :=
  match pick r els with
  | Some e => Found (mkCandidate (handle e) (score r e))
  | None => NotFound
  end.

End Resolver.

Module Executor.
Import Resolver.

(** Modelled from the spec: the protocol calls of the Action Executor
    (section 4.5; server.js is missing): the resolver's search evaluation
    and the verification read are reads; setting a value and dispatching a
    click are the writes of the input simulation. *)
Inductive call :=
| Search (role : string)
| SetValue (h : nat) (v : string)
| DispatchClick (h : nat)
| ReadAppState.

Definition is_write (c : call) : bool :=
  match c with
  | SetValue _ _ | DispatchClick _ => true
  | Search _ | ReadAppState => false
  end.

(** Modelled from the spec: the failure reasons of section 7 that an
    operation reports, and its result (server.js is missing). *)
Inductive reason :=
| RNotFound
| REmptyInput.

Inductive result :=
| Ok
| Failed (why : reason).

(** Modelled from the spec: the commands of section 4.5 (server.js is
    missing). *)
Inductive command :=
| send (text : string)
| stop
| setMode (name : string)
| setModel (name : string)
| remoteClick (targetRole : string).

(** Modelled from the spec: the roles a command resolves, in order (section
    4.5; server.js is missing). [send] sets the value of the chat input and
    clicks the send button. *)
Definition needs (c : command) : list string :=
  match c with
  | send _ => ["chat-input"%string; "send-button"%string]
  | stop => ["stop-button"%string]
  | setMode _ => ["mode-selector"%string]
  | setModel _ => ["model-selector"%string]
  | remoteClick targetRole => [targetRole]
  end.

(** Modelled from the spec: the input simulation on the resolved
    candidates, set value and dispatch click (section 4.5; server.js is
    missing). *)
Definition drive (c : command) (cs : list Candidate) : list call :=
  match c, cs with
  | send text, [input; button] =>
      [SetValue (cand_handle input) text; DispatchClick (cand_handle button)]
  | stop, [button] => [DispatchClick (cand_handle button)]
  | setMode name, [sel] =>
      [DispatchClick (cand_handle sel); SetValue (cand_handle sel) name]
  | setModel name, [sel] =>
      [DispatchClick (cand_handle sel); SetValue (cand_handle sel) name]
  | remoteClick _, [el] => [DispatchClick (cand_handle el)]
  | _, _ => []
  end.

Definition blank_char (a : ascii) : bool :=
  let n := nat_of_ascii a in
  ((9 <=? n)%nat && (n <=? 13)%nat) || (n =? 32)%nat.

(** Modelled from the spec: blank text, empty or white space only, which
    [send] refuses with [EmptyInput] (section 4.5; server.js is missing). *)
Fixpoint is_blank (s : string) : bool :=
  match s with
  | EmptyString => true
  | String a s' => blank_char a && is_blank s'
  end.

(** Modelled from the spec: the roles are resolved one after the other,
    each by one search call, up to the first that is not found (section 4.5;
    server.js is missing). *)
Fixpoint resolve_all (table : string -> RoleDescriptor) (dom : list Element)
    (roles : list string) : list call * option (list Candidate) :=
  match roles with
  | [] => ([], Some [])
  | r :: rs =>
      match resolve (table r) dom with
      | NotFound => ([Search r], None)
      | Found c =>
          let (calls, res) := resolve_all table dom rs in
          (Search r :: calls,
           match res with Some cs => Some (c :: cs) | None => None end)
      end
  end.

(** Modelled from the spec: one operation of the Action Executor (section
    4.5; server.js is missing): [send] refuses blank text before any
    protocol call; otherwise the roles are resolved, and only when all are
    found the candidates are driven and the state is read back. The result
    comes with the protocol calls made, in order. *)
Definition run (table : string -> RoleDescriptor) (dom : list Element)
    (c : command) : result * list call :=
  match c with
  | send text =>
      if is_blank text then (Failed REmptyInput, [])
      else
        match resolve_all table dom (needs c) with
        | (calls, None) => (Failed RNotFound, calls)
        | (calls, Some cs) => (Ok, calls ++ drive c cs ++ [ReadAppState])
        end
  | _ =>
      match resolve_all table dom (needs c) with
      | (calls, None) => (Failed RNotFound, calls)
      | (calls, Some cs) => (Ok, calls ++ drive c cs ++ [ReadAppState])
      end
  end.

Definition writes (calls : list call) : list call := filter is_write calls.

End Executor.

(** * Properties *)

(** A string starts, or ends, with a white space character. *)
Definition leading_ws (s : jsstring) : Prop :=
  exists c s', s = c :: s' /\ is_space c = true.

Definition trailing_ws (s : jsstring) : Prop :=
  exists s' c, s = s' ++ [c] /\ is_space c = true.

(** A string holds three newline characters in a row. *)
Definition nl_run3 (s : jsstring) : Prop :=
  exists a b, s = a ++ NL :: NL :: NL :: b.

(** Blank text: empty, or white space only. *)
Definition blank (s : jsstring) : Prop := forallb is_space s = true.

(** The number of newline characters a string starts with. *)
Fixpoint run (s : jsstring) : nat :=
  match s with
  | c :: s' => if N.eqb c NL then S (run s') else 0
  | [] => 0
  end.

(** No suffix starts with three newline characters. *)
Fixpoint short_runs (s : jsstring) : bool :=
  match s with
  | [] => true
  | _ :: s' => Nat.ltb (run s) 3 && short_runs s'
  end.

(** The newline clean-up of [htmlToText], from position [pos] on. *)
Definition squeeze (pos : nat) (s : jsstring) : jsstring :=
  replace_go false nl3_re (fun _ c => expand [T [NL; NL]] c) pos 0 s.

(** The event of the specification's push channel. *)
Definition changed_event (scope : string) : value :=
  VObj [(u "type", VStr (u "changed")); (u "scope", VStr (u scope))].

(** A mode or model is known when it is present and is not [Unknown]. *)
Definition known (v : value) : Prop :=
  truthy v = true /\ v <> VStr (u "Unknown").

(** An endpoint is selectable when it answers with a well-formed target list
    that holds a target passing the filter. *)
Definition selectable (probe : N -> Locator.probe_result)
    (filter : Locator.Target -> bool) (p : N) : Prop :=
  exists ts t, probe p = Locator.TargetList ts /\ In t ts /\ filter t = true.

(** Ports in ascending order: each is at most every later one. *)
Fixpoint ascending (ports : list N) : Prop :=
  match ports with
  | [] => True
  | p :: ps => (forall q, In q ps -> (p <= q)%N) /\ ascending ps
  end.

(** Scenario A of the specification: of the ports 9000 to 9003 only 9002
    answers, with one matching target. *)
Definition scenario_target : Locator.Target :=
  Locator.mkTarget "page-1" "Antigravity" "ws://127.0.0.1:9002/devtools/page/1".

Definition scenario_probe (p : N) : Locator.probe_result :=
  if N.eqb p 9002 then Locator.TargetList [scenario_target]
  else Locator.Unreachable.

Definition scenario_filter (t : Locator.Target) : bool :=
  String.eqb (Locator.target_title t) "Antigravity".

#[local] Open Scope string_scope.

(** A descriptor and three elements for the resolver: a cancel button that
    would score highest but matches the forbidden fragment, a plain text, and
    the send button. *)
Definition send_button : Resolver.RoleDescriptor :=
  Resolver.mkRole "send-button"
    [(Resolver.RequiredText "send", 5%Z); (Resolver.Clickable, 3%Z);
     (Resolver.Visible, 2%Z); (Resolver.AttrPattern "aria-label" "send", 4%Z);
     (Resolver.ForbiddenText "cancel", 0%Z)]
    1 1 6.

Definition cancel_el : Resolver.Element :=
  Resolver.mkElement 1 "BUTTON" [("aria-label", "Cancel send")]
                     "Cancel send" 40 20 false.

Definition label_el : Resolver.Element :=
  Resolver.mkElement 2 "div" [] "Press Send when ready" 200 20 false.

Definition send_el : Resolver.Element :=
  Resolver.mkElement 3 "button" [] "Send" 40 20 false.

(** Scenario B of the specification: a page with the chat input but nothing
    that resolves as the send button. *)
Definition chat_input : Resolver.RoleDescriptor :=
  Resolver.mkRole "chat-input"
    [(Resolver.TagPattern "textarea", 5%Z); (Resolver.Visible, 2%Z)] 1 1 5.

Definition scenario_table (role : string) : Resolver.RoleDescriptor :=
  if String.eqb role "chat-input" then chat_input
  else Resolver.mkRole role
         [(Resolver.RequiredText "send", 5%Z); (Resolver.Clickable, 3%Z);
          (Resolver.Visible, 2%Z); (Resolver.ForbiddenText "cancel", 0%Z)]
         1 1 8.

Definition input_el : Resolver.Element :=
  Resolver.mkElement 7 "textarea" [] "" 300 40 false.

Definition scenario_dom : list Resolver.Element :=
  [input_el; cancel_el; label_el].

#[local] Close Scope string_scope.

(** The character a pattern must start with, when it starts with a literal
    one. *)
Fixpoint first_cu (r : regex) : option cu :=
  match r with
  | Chr (One c) => Some c
  | Seq r1 _ => first_cu r1
  | Grp _ r1 => first_cu r1
  | _ => None
  end.

Definition LT : cu := 60%N.   (* '<' *)
Definition AMP : cu := 38%N.  (* '&' *)

(** A numeric character reference with the decimal digits [ds]. *)
Definition HASH : cu := 35%N.  (* '#' *)
Definition SEMI : cu := 59%N.  (* ';' *)

Definition entity (ds : jsstring) : jsstring := AMP :: HASH :: ds ++ [SEMI].

(** The last pattern of [decodeEntities]: [&#], group 1 (one or more
    digits), [;]. *)
Definition numeric_re : regex :=
  seqs [lit "&#"; Grp 1 (Plus Digit); lit ";"].

(** A whole call of an async function, the reply arriving before anything
    else touches the state. *)
Definition complete (o : outcome) (r : reply) : state :=
  match o with
  | Finished st _ => st
  | Awaiting st _ _ resume => fst (resume r st)
  end.

(** [typeof v === 'string'] *)
Definition is_string (v : value) : bool :=
  match v with
  | VStr _ => true
  | _ => false
  end.

(** A reply [refreshSnapshot] cannot use: the request was rejected, the body
    is [null] (or [undefined]), or its [html] is truthy but no string. *)
Definition unusable (r : reply) : bool :=
  match r with
  | Rejected => true
  | Resolved snap =>
      match prop snap "html" with
      | None => true
      | Some h => truthy h && negb (is_string h)
      end
  end.

(** An item of the picker that carries the mark of the current model. *)
Definition marked (item : jsstring) : bool := startsWith item (u "{green-fg}").

(** The moments at which the client state changes: the resumptions of the
    async functions, each with the reply it receives. A mode switch resumes
    with the mode it computed from the mode [seen] when it was called; a
    model selection resumes with the index selected. *)
Inductive op :=
| OpSnapshot (r : reply)
| OpState (r : reply)
| OpHealth (r : reply)
| OpSend (r : reply)
| OpSwitch (seen : value) (r : reply)
| OpSelect (idx : nat) (r : reply).

Definition apply_op (o : op) (st : state) : state :=
  match o with
  | OpSnapshot r => fst (refreshSnapshot_resume r st)
  | OpState r => fst (refreshState_resume r st)
  | OpHealth r => fst (refreshHealth_resume r st)
  | OpSend r => fst (sendMessage_resume r st)
  | OpSwitch seen r =>
      fst (switchMode_resume
             (if is_str seen "Fast" then u "Planning" else u "Fast") r st)
  | OpSelect idx r => fst (picker_select_resume idx r st)
  end.

Definition run_ops (ops : list op) (st : state) : state :=
  fold_left (fun s o => apply_op o s) ops st.

(** The list widget selects an index within its items. *)
Definition in_range (o : op) : Prop :=
  match o with
  | OpSelect idx _ => idx < List.length models
  | _ => True
  end.


(** A reply that [switchMode] takes as a success: a body that is not [null]
    whose [success] is not [false]. *)
Definition accepted (r : reply) : Prop :=
  exists res ok, r = Resolved res /\ prop res "success" = Some ok /\
                 not_false ok = true.

(** ** Strings *)

Lemma str_eqb_eq (a b : jsstring) : str_eqb a b = true <-> a = b.
Proof.
  revert b; induction a as [|x a IH]; intros [|y b]; simpl;
    try (split; [discriminate | congruence]).
  - split; reflexivity.
  - rewrite andb_true_iff, N.eqb_eq, IH. split.
    + intros [-> ->]; reflexivity.
    + intros H; injection H; auto.
Qed.

Lemma str_eqb_refl (a : jsstring) : str_eqb a a = true.
Proof. apply str_eqb_eq; reflexivity. Qed.

Lemma str_eqb_neq (a b : jsstring) : str_eqb a b = false <-> a <> b.
Proof.
  rewrite <- str_eqb_eq. destruct (str_eqb a b); split; congruence.
Qed.

Lemma trimStart_suffix (s : jsstring) :
  exists p, s = p ++ trimStart s /\ forallb is_space p = true.
Proof.
  induction s as [|c s [p [Hp Hs]]]; simpl.
  - exists []; auto.
  - destruct (is_space c) eqn:E.
    + exists (c :: p); simpl; rewrite E, Hs, <- Hp; auto.
    + exists []; auto.
Qed.

Lemma trimStart_no_leading (s : jsstring) : ~ leading_ws (trimStart s).
Proof.
  induction s as [|c s IH]; simpl.
  - intros (x & s' & H & _); discriminate.
  - destruct (is_space c) eqn:E; auto.
    intros (x & s' & H & Hx); injection H as -> ->; congruence.
Qed.

Lemma trimEnd_prefix (s : jsstring) :
  exists q, s = trimEnd s ++ q /\ forallb is_space q = true.
Proof.
  unfold trimEnd. destruct (trimStart_suffix (rev s)) as [p [Hp Hs]].
  exists (rev p). split.
  - rewrite <- rev_app_distr, <- Hp, rev_involutive; reflexivity.
  - rewrite forallb_forall in *. intros x Hx. apply Hs, in_rev, Hx.
Qed.

Lemma trimEnd_no_trailing (s : jsstring) : ~ trailing_ws (trimEnd s).
Proof.
  intros (s' & c & H & Hc). unfold trimEnd in H.
  apply (trimStart_no_leading (rev s)). exists c, (rev s'). split; auto.
  rewrite <- (rev_involutive (trimStart (rev s))), H, rev_app_distr.
  reflexivity.
Qed.

Lemma trimEnd_keeps_head (s : jsstring) :
  ~ leading_ws s -> ~ leading_ws (trimEnd s).
Proof.
  intros H (c & s' & E & Hc). apply H.
  destruct (trimEnd_prefix s) as [q [Hq _]].
  exists c, (s' ++ q). rewrite Hq, E. auto.
Qed.

Lemma trim_no_leading (s : jsstring) : ~ leading_ws (trim s).
Proof. apply trimEnd_keeps_head, trimStart_no_leading. Qed.

Lemma trim_no_trailing (s : jsstring) : ~ trailing_ws (trim s).
Proof. apply trimEnd_no_trailing. Qed.

Lemma trim_infix (s : jsstring) : exists p q, s = p ++ trim s ++ q.
Proof.
  destruct (trimStart_suffix s) as [p [Hp _]].
  destruct (trimEnd_prefix (trimStart s)) as [q [Hq _]].
  exists p, q. unfold trim. rewrite <- Hq. exact Hp.
Qed.

Lemma trim_keeps_short_runs (s : jsstring) : ~ nl_run3 s -> ~ nl_run3 (trim s).
Proof.
  intros H (a & b & E). apply H.
  destruct (trim_infix s) as (p & q & Hs).
  exists (p ++ a), (b ++ q). rewrite Hs, E.
  repeat (rewrite <- app_assoc; simpl). reflexivity.
Qed.

Lemma trimStart_blank (s : jsstring) : blank s -> trimStart s = [].
Proof.
  unfold blank. induction s as [|c s IH]; simpl; auto.
  rewrite andb_true_iff. intros [-> H]. auto.
Qed.

Lemma trim_blank (s : jsstring) : blank s -> trim s = [].
Proof. intros H. unfold trim. rewrite (trimStart_blank H). reflexivity. Qed.

Lemma trim_nil_blank (s : jsstring) : trim s = [] -> blank s.
Proof.
  intros H. destruct (trimStart_suffix s) as [p [Hp Bp]].
  destruct (trimEnd_prefix (trimStart s)) as [q [Hq Bq]].
  unfold trim in H. rewrite H in Hq. simpl in Hq.
  unfold blank. rewrite Hp, Hq, forallb_app, Bp, Bq. reflexivity.
Qed.

(** ** The newline clean-up of htmlToText *)

Lemma run_le_length (s : jsstring) : run s <= List.length s.
Proof.
  induction s as [|c s IH]; simpl; auto.
  destruct (N.eqb c NL); lia.
Qed.

Lemma run_skipn (s : jsstring) : run (skipn (run s) s) = 0.
Proof.
  induction s as [|c s IH]; simpl; auto.
  destruct (N.eqb c NL) eqn:E; simpl; auto. rewrite E; reflexivity.
Qed.

Lemma short_runs_sound (s : jsstring) : short_runs s = true -> ~ nl_run3 s.
Proof.
  intros H (a & b & E). subst s. induction a as [|x a IH]; simpl in H.
  - discriminate.
  - apply andb_true_iff in H. tauto.
Qed.

Lemma member_newline (x : cu) : member false (One NL) x = N.eqb x NL.
Proof. unfold member, cu_eqb. apply N.eqb_sym. Qed.

(** A greedy quantifier over the newline takes the whole run, when the run
    is long enough. *)
Lemma rep_newlines (s : jsstring) : forall lo pos pos0,
  rep false true (One NL) lo None pos s []
      (fun pos' _ c => Some (pos' - pos0, c))
  = if Nat.leb lo (run s) then Some (pos + run s - pos0, []) else None.
Proof.
  induction s as [|x s IH]; intros lo pos pos0; cbn [rep run].
  - destruct lo; cbn [Nat.leb]; auto. rewrite Nat.add_0_r; reflexivity.
  - rewrite member_newline. cbn [may_repeat dec_hi].
    destruct (N.eqb x NL) eqn:E; cbn [andb].
    + rewrite IH. destruct lo as [|lo]; cbn [Nat.leb pred].
      * rewrite Nat.add_succ_r; reflexivity.
      * destruct (Nat.leb lo (run s)); auto.
        rewrite Nat.add_succ_r; reflexivity.
    + destruct lo; cbn [Nat.leb]; auto. rewrite Nat.add_0_r; reflexivity.
Qed.

Lemma exec_nl3 (pos : nat) (s : jsstring) :
  exec_at false nl3_re pos s
  = if Nat.leb 3 (run s) then Some (run s, []) else None.
Proof.
  unfold exec_at, nl3_re. cbn [rmatch]. rewrite rep_newlines.
  destruct (Nat.leb 3 (run s)); auto.
  f_equal; f_equal; lia.
Qed.

Lemma replace_go_skip ic r f : forall n s pos,
  n <= List.length s ->
  replace_go ic r f pos n s = replace_go ic r f (pos + n) 0 (skipn n s).
Proof.
  induction n as [|n IH]; intros s pos H.
  - rewrite Nat.add_0_r; reflexivity.
  - destruct s as [|x s]; simpl in H; [lia|].
    simpl. rewrite IH by lia. f_equal. lia.
Qed.

Lemma squeeze_short_runs : forall n s pos,
  List.length s <= n ->
  short_runs (squeeze pos s) = true /\ run (squeeze pos s) <= run s.
Proof.
  unfold squeeze.
  induction n as [|n IH]; intros [|x s] pos H; simpl in H; try lia;
    try (cbn [replace_go]; rewrite exec_nl3; simpl; auto; fail).
  cbn [replace_go]. rewrite exec_nl3.
  destruct (Nat.leb 3 (run (x :: s))) eqn:E3.
  - apply Nat.leb_le in E3. simpl in E3 |- *.
    destruct (N.eqb x NL) eqn:Ex; [|lia].
    rewrite replace_go_skip by apply run_le_length.
    destruct (IH (skipn (run s) s) (S pos + run s)) as [Hs Hr].
    { rewrite List.length_skipn. lia. }
    rewrite run_skipn in Hr.
    set (rest := replace_go _ _ _ _ _ _) in *.
    assert (run rest = 0) as R0 by lia.
    cbn [expand app short_runs run]. rewrite N.eqb_refl, R0, Hs.
    split; [reflexivity | lia].
  - apply Nat.leb_gt in E3.
    destruct (IH s (S pos)) as [Hs Hr]; [lia|].
    set (rest := replace_go _ _ _ _ _ _) in *.
    simpl in E3 |- *. destruct (N.eqb x NL) eqn:Ex.
    + rewrite Hs. split; [|lia].
      rewrite andb_true_r. apply Nat.ltb_lt. lia.
    + rewrite Hs. split; [reflexivity | lia].
Qed.

Lemma cleanup_short_runs (s : jsstring) :
  ~ nl_run3 (replace_tpl false nl3_re [T [NL; NL]] s).
Proof.
  apply short_runs_sound.
  apply (proj1 (@squeeze_short_runs (List.length s) s 0 (le_n _))).
Qed.

(** ** htmlToText *)

Lemma convert_normalized (h : jsstring) :
  ~ leading_ws (convert h) /\ ~ trailing_ws (convert h) /\ ~ nl_run3 (convert h).
Proof.
  unfold convert. cbv zeta.
  match goal with
  | |- context [trim (replace_tpl false nl3_re ?t ?x)] =>
      generalize x; intros body
  end.
  split; [apply trim_no_leading|].
  split; [apply trim_no_trailing|].
  apply trim_keeps_short_runs, cleanup_short_runs.
Qed.

Lemma nil_normalized :
  ~ leading_ws [] /\ ~ trailing_ws [] /\ ~ nl_run3 [].
Proof.
  repeat split.
  - intros (c & s & H & _); discriminate.
  - intros (s & c & H & _); destruct s; discriminate.
  - intros (a & b & H); destruct a; discriminate.
Qed.

(** C10. [htmlToText] returns the empty string when its input is absent or
    empty; whatever the input, its result has no leading white space, no
    trailing white space, and no run of three or more newline characters. *)
Theorem htmlToText_normalized :
  htmlToText None = [] /\
  htmlToText (Some []) = [] /\
  forall html : option jsstring,
    ~ leading_ws (htmlToText html) /\
    ~ trailing_ws (htmlToText html) /\
    ~ nl_run3 (htmlToText html).
Proof.
  split; [reflexivity|]. split; [reflexivity|].
  intros [[|c h]|]; cbn [htmlToText].
  - apply nil_normalized.
  - apply convert_normalized.
  - apply nil_normalized.
Qed.

Example htmlToText_paragraphs :
  htmlToText (Some (u "<p>Hello <b>world</b></p><p>two</p>"))
  = u "Hello *world*" ++ NL :: u "two".
Proof. vm_compute. reflexivity. Qed.

Example htmlToText_code_block :
  htmlToText (Some (u "<PRE class=x><code>a &lt; b</code></pre>x<br/>y"))
  = u "```" ++ NL :: u "a < b" ++ NL :: u "```" ++ NL :: u "x" ++ NL :: u "y".
Proof. vm_compute. reflexivity. Qed.

Example htmlToText_list_and_newlines :
  htmlToText (Some (u "<li>one</li>" ++ [NL; NL; NL; NL] ++ u "<h2>t</h2>  "))
  = BULLET :: u " one" ++ [NL; NL] ++ u "## t".
Proof. vm_compute. reflexivity. Qed.

Example decodeEntities_chain :
  decodeEntities (u "&#65;&amp;lt;&#65601;&nbsp;&#99999999999999999999999;")
  = u "A<A " ++ [0%N].
Proof. vm_compute. reflexivity. Qed.

Example to_number_rounds :
  to_number (2 ^ 53 + 1) = Some (2 ^ 53)%N /\
  to_number (2 ^ 53 + 3) = Some (2 ^ 53 + 4)%N /\
  to_number (2 ^ 1024) = None.
Proof. vm_compute. repeat split. Qed.

Example color_line_user :
  color_line (u "you : hi") = u "{cyan-fg}{bold}you : hi{/}" /\
  color_line (u "say You: hi") = u "say You: hi" /\
  color_line (u "  " ++ BULLET :: u " one")
  = u "{white-fg}  " ++ BULLET :: u " one{/}".
Proof. vm_compute. repeat split. Qed.

(** ** renderChat *)

Lemma renderChat_same (html : option jsstring) (st : state) :
  htmlToText html = lastChatText st -> renderChat html st = (st, []).
Proof.
  intros H. unfold renderChat. rewrite H, str_eqb_refl. reflexivity.
Qed.

Lemma renderChat_differs (html : option jsstring) (st : state) :
  htmlToText html <> lastChatText st ->
  renderChat html st
  = (set_chat (htmlToText html) (Text (colorize (htmlToText html))) st,
     [ScrollPerc 100; Render]).
Proof.
  intros H. unfold renderChat.
  apply str_eqb_neq in H. rewrite H. reflexivity.
Qed.

Lemma renderChat_lastChatText (html : option jsstring) (st : state) :
  lastChatText (fst (renderChat html st)) = htmlToText html.
Proof.
  unfold renderChat.
  destruct (str_eqb (htmlToText html) (lastChatText st)) eqn:E; simpl; auto.
  apply str_eqb_eq in E. auto.
Qed.

(** C1. [renderChat] called with HTML that converts to the text rendered
    last changes nothing: the state (chat display and [lastChatText]) is the
    same and no effect is produced; in particular rendering the same content
    a second time in a row changes nothing. *)
Theorem renderChat_unchanged (html : option jsstring) (st : state) :
  (htmlToText html = lastChatText st -> renderChat html st = (st, [])) /\
  renderChat html (fst (renderChat html st)) = (fst (renderChat html st), []).
Proof.
  split.
  - apply renderChat_same.
  - apply renderChat_same. symmetry. apply renderChat_lastChatText.
Qed.

Lemma renderChat_unchanged_witness :
  let st := fst (renderChat (Some (u "<p>hi</p>")) init) in
  htmlToText (Some (u "<div>hi</div>")) = lastChatText st /\
  renderChat (Some (u "<div>hi</div>")) st = (st, []).
Proof.
  intros st. split.
  - vm_compute. reflexivity.
  - apply (proj1 (renderChat_unchanged (Some (u "<div>hi</div>")) st)).
    vm_compute. reflexivity.
Defined.

(** C2, as stated, fails: two contents that differ in their bytes but convert
    to the same text; after the first is rendered, the second is not seen as
    a change. *)
Lemma byte_difference_not_detected :
  ~ (forall (h1 h2 : jsstring) (st : state),
        h1 <> h2 ->
        snd (renderChat (Some h2) (fst (renderChat (Some h1) st))) <> []).
Proof.
  intros H.
  apply (H (u "<p>hi</p>") (u "hi ") init).
  - discriminate.
  - vm_compute. reflexivity.
Qed.

(** C2, amended. The client detects a change exactly when the converted
    text differs: of two successive contents, the second updates
    [lastChatText] and the chat display when its text differs from the text
    of the first, and changes nothing when the texts are equal. *)
Theorem renderChat_detects_text_change (h1 h2 : option jsstring) (st : state) :
  let st1 := fst (renderChat h1 st) in
  (htmlToText h2 <> htmlToText h1 ->
   renderChat h2 st1
   = (set_chat (htmlToText h2) (Text (colorize (htmlToText h2))) st1,
      [ScrollPerc 100; Render])) /\
  (htmlToText h2 = htmlToText h1 -> renderChat h2 st1 = (st1, [])).
Proof.
  intros st1. subst st1. split; intros H.
  - apply renderChat_differs. rewrite renderChat_lastChatText. exact H.
  - apply renderChat_same. rewrite renderChat_lastChatText. exact H.
Qed.

Lemma renderChat_detects_text_change_witness :
  let h1 := Some (u "<p>hi</p>") in
  let h2 := Some (u "<p>hi</p><p>there</p>") in
  let st1 := fst (renderChat h1 init) in
  htmlToText h2 <> htmlToText h1 /\
  chatContent (fst (renderChat h2 st1)) = Text (u "hi" ++ NL :: u "there").
Proof.
  intros h1 h2 st1. split.
  - vm_compute. discriminate.
  - unfold st1.
    rewrite (proj1 (renderChat_detects_text_change h1 h2 init)).
    + vm_compute. reflexivity.
    + vm_compute. discriminate.
Defined.

(** ** sendMessage and the submit handler *)

Lemma trim_not_blank (s : jsstring) : trim s <> [] -> ~ blank (trim s).
Proof.
  intros Hne Hb. destruct (trim s) as [|c r] eqn:E; [congruence|].
  apply (trim_no_leading s). rewrite E. exists c, r. split; auto.
  unfold blank in Hb. simpl in Hb. apply andb_true_iff in Hb. tauto.
Qed.

(** C3. For blank text (empty or white space only) [sendMessage] returns at
    once: no feedback, no HTTP request, the state as it was; the submit
    handler does not call [sendMessage] for a blank value and only clears and
    refocuses the input. Whatever the value, the text the handler passes to
    [sendMessage] is never blank. *)
Theorem blank_text_not_sent (text : jsstring) (st : state) :
  (blank text ->
   sendMessage text st = Finished st [] /\
   request_of (sendMessage text st) = None /\
   submit_call text = None /\
   on_submit text st = Finished st after_submit) /\
  (forall t, submit_call text = Some t -> ~ blank t).
Proof.
  split.
  - intros H. unfold on_submit, submit_call, sendMessage.
    rewrite (trim_blank H). repeat split; reflexivity.
  - intros t. unfold submit_call.
    destruct (trim text) as [|c r] eqn:E; [discriminate|].
    intros [= <-]. rewrite <- E. apply trim_not_blank. congruence.
Qed.

Lemma blank_text_not_sent_witness :
  let text := [32; 9; 10]%N in
  blank text /\ on_submit text init = Finished init after_submit.
Proof.
  intros text. split.
  - reflexivity.
  - apply (proj1 (blank_text_not_sent text init)). reflexivity.
Defined.

(** ** The WebSocket message handler *)

(** C4, as stated, fails: on an event of the form
    [{type: 'changed', scope: 'snapshot'}] the handler does not fetch
    [/snapshot]; it does nothing. *)
Lemma changed_event_not_fetched :
  request_of (on_ws_message (Some (changed_event "snapshot")) init)
  <> Some (Get "/snapshot")
  /\ on_ws_message (Some (changed_event "snapshot")) init = Finished init [].
Proof. split; [discriminate | reflexivity]. Qed.

Lemma is_str_eq (v : value) (s : string) :
  is_str v s = true <-> v = VStr (u s).
Proof.
  destruct v; simpl; try (split; [discriminate | congruence]).
  rewrite str_eqb_eq. split; [congruence | intros [= ->]; reflexivity].
Qed.

Lemma is_str_neq (v : value) (s : string) :
  is_str v s = false <-> v <> VStr (u s).
Proof.
  rewrite <- is_str_eq. destruct (is_str v s); split; congruence.
Qed.

(** C4, amended. The handler reads nothing but the [type] of a push
    message: when the message parses and its [type] is the string
    [snapshot_update], the handler starts [refreshSnapshot], which requests
    [/snapshot] and takes the content from the reply alone; every other
    message is ignored. *)
Theorem ws_message_refetches (parsed : option value) (st : state) :
  ((exists msg, parsed = Some msg /\
                prop msg "type" = Some (VStr (u "snapshot_update"))) ->
   on_ws_message parsed st = refreshSnapshot st /\
   request_of (on_ws_message parsed st) = Some (Get "/snapshot")) /\
  (~ (exists msg, parsed = Some msg /\
                  prop msg "type" = Some (VStr (u "snapshot_update"))) ->
   on_ws_message parsed st = Finished st []) /\
  (forall m1 m2, prop m1 "type" = prop m2 "type" ->
                 on_ws_message (Some m1) st = on_ws_message (Some m2) st).
Proof.
  split; [|split].
  - intros (msg & -> & H). unfold on_ws_message. rewrite H.
    split; reflexivity.
  - intros H. unfold on_ws_message.
    destruct parsed as [msg|]; auto.
    destruct (prop msg "type") as [t|] eqn:E; auto.
    destruct (is_str t "snapshot_update") eqn:Et; auto.
    apply is_str_eq in Et. subst t. exfalso. apply H. exists msg. auto.
  - intros m1 m2 H. unfold on_ws_message. rewrite H. reflexivity.
Qed.

Lemma ws_message_refetches_witness :
  let msg := VObj [(u "type", VStr (u "snapshot_update"));
                   (u "timestamp", VNum 1700000000000)] in
  prop msg "type" = Some (VStr (u "snapshot_update")) /\
  request_of (on_ws_message (Some msg) init) = Some (Get "/snapshot").
Proof.
  intros msg. split.
  - reflexivity.
  - apply (proj1 (ws_message_refetches (Some msg) init)).
    exists msg. split; reflexivity.
Defined.

(** ** switchMode *)

(** C8. [switchMode] asks for the opposite of the mode on display: with
    [currentMode] equal to [Fast] it posts the mode [Planning]; with any
    other value of [currentMode] it posts [Fast]. The mode asked for is never
    the current one. *)
Theorem switchMode_toggles (st : state) :
  (currentMode st = VStr (u "Fast") ->
   request_of (switchMode st)
   = Some (Post "/set-mode" (VObj [(u "mode", VStr (u "Planning"))]))) /\
  (currentMode st <> VStr (u "Fast") ->
   request_of (switchMode st)
   = Some (Post "/set-mode" (VObj [(u "mode", VStr (u "Fast"))]))) /\
  (forall m, request_of (switchMode st)
             = Some (Post "/set-mode" (VObj [(u "mode", m)])) ->
             m <> currentMode st).
Proof.
  unfold switchMode. cbn [request_of].
  destruct (is_str (currentMode st) "Fast") eqn:E.
  - apply is_str_eq in E. repeat split.
    + congruence.
    + intros m [= <-]. rewrite E. discriminate.
  - apply is_str_neq in E. repeat split.
    + congruence.
    + intros m [= <-]. congruence.
Qed.

Lemma switchMode_toggles_witness :
  currentMode (set_mode (VStr (u "Planning")) init) <> VStr (u "Fast") /\
  request_of (switchMode (set_mode (VStr (u "Planning")) init))
  = Some (Post "/set-mode" (VObj [(u "mode", VStr (u "Fast"))])) /\
  request_of (switchMode (set_mode (VStr (u "Fast")) init))
  = Some (Post "/set-mode" (VObj [(u "mode", VStr (u "Planning"))])) /\
  request_of (switchMode init)
  = Some (Post "/set-mode" (VObj [(u "mode", VStr (u "Fast"))])).
Proof.
  split; [discriminate|]. split; [|split].
  - apply (proj1 (proj2 (switchMode_toggles _))). discriminate.
  - apply (proj1 (switchMode_toggles _)). reflexivity.
  - apply (proj1 (proj2 (switchMode_toggles _))). discriminate.
Defined.

(** ** refreshState *)

Lemma refreshState_mode (r : reply) (st : state) :
  currentMode (fst (refreshState_resume r st)) = currentMode st \/
  exists s mode, r = Resolved s /\ prop s "mode" = Some mode /\ known mode /\
                 currentMode (fst (refreshState_resume r st)) = mode.
Proof.
  destruct r as [|s]; cbn [refreshState_resume fst]; auto.
  destruct (prop s "mode") as [mode|] eqn:Em; auto.
  destruct (prop s "model") as [model|] eqn:El; auto.
  cbn [fst].
  assert (forall x, currentMode
            (if truthy model && negb (is_str model "Unknown")
             then set_model model x else x) = currentMode x) as Hm
    by (intros x; destruct (truthy model && negb (is_str model "Unknown"));
        reflexivity).
  rewrite Hm.
  destruct (truthy mode && negb (is_str mode "Unknown")) eqn:E; auto.
  right. exists s, mode. apply andb_true_iff in E. destruct E as [Et En].
  apply negb_true_iff, is_str_neq in En. unfold known. auto.
Qed.

Lemma refreshState_model (r : reply) (st : state) :
  currentModel (fst (refreshState_resume r st)) = currentModel st \/
  exists s model, r = Resolved s /\ prop s "model" = Some model /\
                  known model /\
                  currentModel (fst (refreshState_resume r st)) = model.
Proof.
  destruct r as [|s]; cbn [refreshState_resume fst]; auto.
  destruct (prop s "mode") as [mode|] eqn:Em; auto.
  destruct (prop s "model") as [model|] eqn:El; auto.
  cbn [fst].
  destruct (truthy model && negb (is_str model "Unknown")) eqn:E.
  - right. exists s, model. apply andb_true_iff in E. destruct E as [Et En].
    apply negb_true_iff, is_str_neq in En. unfold known. auto.
  - left. destruct (truthy mode && negb (is_str mode "Unknown")); reflexivity.
Qed.

(** C9. [refreshState] never sets a mode or model that differs from
    [Unknown] back to [Unknown], and never clears one that is present: each
    field is overwritten only with a present value other than [Unknown] that
    the fetched state provides, and a failed read (a rejected request, a
    [null] body) or an empty one leaves the state as it was. The call itself
    changes nothing before the reply. *)
Theorem refreshState_keeps_known (r : reply) (st : state) :
  let st' := fst (refreshState_resume r st) in
  (currentMode st <> VStr (u "Unknown") ->
   currentMode st' <> VStr (u "Unknown")) /\
  (truthy (currentMode st) = true -> truthy (currentMode st') = true) /\
  (currentModel st <> VStr (u "Unknown") ->
   currentModel st' <> VStr (u "Unknown")) /\
  (truthy (currentModel st) = true -> truthy (currentModel st') = true) /\
  (currentMode st' <> currentMode st ->
   exists s mode, r = Resolved s /\ prop s "mode" = Some mode /\
                  known mode /\ currentMode st' = mode) /\
  (currentModel st' <> currentModel st ->
   exists s model, r = Resolved s /\ prop s "model" = Some model /\
                   known model /\ currentModel st' = model) /\
  (r = Rejected \/ r = Resolved VNull \/ r = Resolved (VObj [])
   \/ r = Resolved (VStr []) -> st' = st) /\
  refreshState st = Awaiting st [] (Get "/app-state") refreshState_resume.
Proof.
  intros st'. subst st'. unfold known in *.
  destruct (refreshState_mode r st)
    as [Hm | (s & mode & Hr & Hp & [Ht Hk] & Hm)];
  destruct (refreshState_model r st)
    as [Hl | (s' & model & Hr' & Hp' & [Ht' Hk'] & Hl)];
  (split; [intros K; rewrite Hm; assumption|]);
  (split; [intros K; rewrite Hm; assumption|]);
  (split; [intros K; rewrite Hl; assumption|]);
  (split; [intros K; rewrite Hl; assumption|]);
  (split; [intros N; try congruence; eauto 8|]);
  (split; [intros N; try congruence; eauto 8|]);
  (split; [|reflexivity]);
  intros [-> | [-> | [-> | ->]]]; try reflexivity; destruct st; reflexivity.
Qed.

Lemma refreshState_keeps_known_witness :
  let st := set_mode (VStr (u "Planning")) init in
  let r := Resolved (VObj [(u "mode", VStr (u "Unknown"));
                           (u "model", VStr (u "Gemini 3 Flash"))]) in
  known (currentMode st) /\
  known (currentMode (fst (refreshState_resume r st))) /\
  currentModel (fst (refreshState_resume r st)) = VStr (u "Gemini 3 Flash").
Proof.
  intros st r.
  assert (known (currentMode st)) as K by (split; [reflexivity | discriminate]).
  split; [exact K|]. split.
  - destruct K as [Kt Kn]. split.
    + apply (proj1 (proj2 (refreshState_keeps_known r st))). exact Kt.
    + apply (proj1 (refreshState_keeps_known r st)). exact Kn.
  - reflexivity.
Defined.

(** * The bridge *)

Section LocatorFacts.
Import Locator.

Variable probe : N -> probe_result.
Variable filter : Target -> bool.

Lemma offer_selectable (p : N) :
  (exists t, offer filter (probe p) = Some t) <-> selectable probe filter p.
Proof.
  unfold selectable, offer. split.
  - intros [t H]. destruct (probe p) as [| |ts]; try discriminate.
    exists ts, t. apply find_some in H. tauto.
  - intros (ts & t & -> & Hin & Hf).
    destruct (find filter ts) as [t'|] eqn:E; eauto.
    exfalso. apply (find_none _ _ E) in Hin. congruence.
Qed.

Lemma offer_none (p : N) :
  offer filter (probe p) = None <-> ~ selectable probe filter p.
Proof.
  rewrite <- offer_selectable.
  destruct (offer filter (probe p)) as [t|]; split.
  - discriminate.
  - intros H; exfalso; apply H; eauto.
  - intros _ [t' H]; discriminate.
  - reflexivity.
Qed.

Lemma locate_located (ports : list N) : forall p t,
  locate probe filter ports = Located p t ->
  exists before after,
    ports = before ++ p :: after /\
    offer filter (probe p) = Some t /\
    forall q, In q before -> ~ selectable probe filter q.
Proof.
  induction ports as [|x ports IH]; intros p t; cbn [locate].
  - discriminate.
  - destruct (offer filter (probe x)) as [t'|] eqn:E.
    + intros [= <- <-]. exists [], ports. repeat split; auto.
    + intros H. destruct (IH p t H) as (before & after & -> & Ho & Hb).
      exists (x :: before), after. repeat split; auto.
      intros q [<- | Hq]; auto. apply offer_none, E.
Qed.

Lemma locate_none (ports : list N) :
  locate probe filter ports = NoTargetFound <->
  forall q, In q ports -> ~ selectable probe filter q.
Proof.
  induction ports as [|x ports IH]; cbn [locate].
  - split; [intros _ q [] | reflexivity].
  - destruct (offer filter (probe x)) as [t'|] eqn:E.
    + split; [discriminate|]. intros H. exfalso.
      apply (H x (or_introl eq_refl)), offer_selectable. eauto.
    + rewrite IH. split.
      * intros H q [<- | Hq]; auto. apply offer_none, E.
      * intros H q Hq. apply H. right; exact Hq.
Qed.

Lemma locate_lowest (ports : list N) :
  ascending ports ->
  forall p t, locate probe filter ports = Located p t ->
  forall q, In q ports -> selectable probe filter q -> (p <= q)%N.
Proof.
  induction ports as [|x ports IH]; intros Ha p t; cbn [locate].
  - discriminate.
  - cbn [ascending] in Ha. destruct Ha as [Hx Ha].
    destruct (offer filter (probe x)) as [t'|] eqn:E.
    + intros [= <- <-] q [<- | Hq] _; [apply N.le_refl | apply Hx, Hq].
    + intros H q [<- | Hq] Hs.
      * exfalso. apply offer_none in E. tauto.
      * apply (IH Ha p t H q Hq Hs).
Qed.

End LocatorFacts.

(** C7. [locate] returns the first endpoint in probe order that answers with
    a well-formed target list holding a target that passes the filter, with
    the first such target; it returns [NoTargetFound] exactly when no
    candidate is selectable (each is unreachable, or answers no well-formed
    list, or offers no matching target); over ports in ascending order the
    selected port is the lowest selectable one. Probing 9000 to 9003 where
    only 9002 answers with a matching target selects 9002. *)
Theorem locate_first_match (probe : N -> Locator.probe_result)
    (filter : Locator.Target -> bool) (ports : list N) :
  (forall p t,
      Locator.locate probe filter ports = Locator.Located p t ->
      exists before after,
        ports = before ++ p :: after /\
        (exists ts, probe p = Locator.TargetList ts /\
                    find filter ts = Some t /\ In t ts /\ filter t = true) /\
        forall q, In q before -> ~ selectable probe filter q) /\
  (Locator.locate probe filter ports = Locator.NoTargetFound <->
   forall q, In q ports -> ~ selectable probe filter q) /\
  (ascending ports ->
   forall p t,
     Locator.locate probe filter ports = Locator.Located p t ->
     forall q, In q ports -> selectable probe filter q -> (p <= q)%N).
Proof.
  split; [|split].
  - intros p t H.
    destruct (locate_located probe filter ports H)
      as (before & after & Hp & Ho & Hb).
    exists before, after. repeat split; auto.
    unfold Locator.offer in Ho.
    destruct (probe p) as [| |ts]; try discriminate.
    exists ts. pose proof (find_some _ _ Ho). tauto.
  - apply locate_none.
  - apply locate_lowest.
Qed.

Lemma locate_first_match_witness :
  ascending [9000; 9001; 9002; 9003]%N /\
  Locator.locate scenario_probe scenario_filter [9000; 9001; 9002; 9003]%N
  = Locator.Located 9002%N scenario_target /\
  forall q, In q [9000; 9001; 9002; 9003]%N ->
            selectable scenario_probe scenario_filter q -> (9002 <= q)%N.
Proof.
  assert (ascending [9000; 9001; 9002; 9003]%N) as Ha.
  { cbn. repeat split; intros q Hq; cbn in Hq; intuition (subst; lia). }
  assert (Locator.locate scenario_probe scenario_filter
            [9000; 9001; 9002; 9003]%N
          = Locator.Located 9002%N scenario_target) as Hl by reflexivity.
  split; [exact Ha|]. split; [exact Hl|].
  exact (proj2 (proj2 (locate_first_match scenario_probe scenario_filter
                         [9000; 9001; 9002; 9003]%N)) Ha _ _ Hl).
Defined.

Section ResolverFacts.
Import Resolver.

Variable r : RoleDescriptor.

(** Closes the side goals of the scan lemmas: an element is the head of
    the list or comes from the induction hypothesis. *)
Ltac scan_side :=
  repeat split; auto; try lia;
  try (intros ? []; fail);
  try (intros ? [<- | ?] ?; auto; try lia; try congruence; fail).

(** Starting from a best element [b], the scan keeps [b] unless a later
    element scores strictly higher. *)
Lemma scan_from_some (els : list Element) : forall b,
  (fold_left (better r) els (Some b) = Some b /\
   forall x, In x els -> eligible r x = true -> (score r x <= score r b)%Z)
  \/
  exists before c after,
    els = before ++ c :: after /\
    fold_left (better r) els (Some b) = Some c /\
    eligible r c = true /\
    (score r b < score r c)%Z /\
    (forall x, In x before -> eligible r x = true ->
               (score r x < score r c)%Z) /\
    (forall x, In x after -> eligible r x = true ->
               (score r x <= score r c)%Z).
Proof.
  induction els as [|e els IH]; intros b; cbn [fold_left].
  - left. scan_side.
  - remember (better r (Some b) e) as acc eqn:Hacc. unfold better in Hacc.
    destruct (eligible r e) eqn:Ee;
      [destruct (Z.ltb (score r b) (score r e)) eqn:Elt|]; subst acc.
    + { apply Z.ltb_lt in Elt. right.
        destruct (IH e)
          as [[Hf Hle] | (bf & c & af & -> & Hf & Hc & Hlt & Hb & Ha)].
        - exists [], e, els. scan_side.
        - exists (e :: bf), c, af. scan_side. }
    + { apply Z.ltb_ge in Elt.
        destruct (IH b)
          as [[Hf Hle] | (bf & c & af & -> & Hf & Hc & Hlt & Hb & Ha)].
        - left. scan_side.
        - right. exists (e :: bf), c, af. scan_side. }
    + destruct (IH b)
        as [[Hf Hle] | (bf & c & af & -> & Hf & Hc & Hlt & Hb & Ha)].
      * left. scan_side.
      * right. exists (e :: bf), c, af. scan_side.
Qed.

Lemma pick_some (els : list Element) : forall c,
  pick r els = Some c ->
  exists before after,
    els = before ++ c :: after /\
    eligible r c = true /\
    (forall x, In x before -> eligible r x = true ->
               (score r x < score r c)%Z) /\
    (forall x, In x after -> eligible r x = true ->
               (score r x <= score r c)%Z).
Proof.
  unfold pick. induction els as [|e els IH]; intros c; cbn [fold_left].
  - discriminate.
  - remember (better r None e) as acc eqn:Hacc. unfold better in Hacc.
    destruct (eligible r e) eqn:Ee; subst acc.
    + destruct (scan_from_some els e)
        as [[Hf Hle] | (bf & c' & af & -> & Hf & Hc & Hlt & Hb & Ha)];
        rewrite Hf; intros [= <-].
      * exists [], els. scan_side.
      * exists (e :: bf), af. scan_side.
    + intros H. destruct (IH c H) as (bf & af & -> & Hc & Hb & Ha).
      exists (e :: bf), af. scan_side.
Qed.

Lemma pick_none (els : list Element) :
  pick r els = None <-> forall x, In x els -> eligible r x = false.
Proof.
  unfold pick. induction els as [|e els IH]; cbn [fold_left].
  - split; [intros _ x [] | reflexivity].
  - remember (better r None e) as acc eqn:Hacc. unfold better in Hacc.
    destruct (eligible r e) eqn:Ee; subst acc.
    + split.
      * destruct (scan_from_some els e)
          as [[Hf _] | (bf & c & af & _ & Hf & _)]; rewrite Hf; discriminate.
      * intros H. rewrite (H e (or_introl eq_refl)) in Ee. discriminate.
    + rewrite IH. split.
      * intros H x [<- | Hx]; auto.
      * intros H x Hx. apply H. right; exact Hx.
Qed.

Lemma eligible_not_disqualified (e : Element) :
  eligible r e = true -> disqualified r e = false /\ clears r e = true.
Proof.
  unfold eligible. rewrite andb_true_iff, negb_true_iff. tauto.
Qed.

End ResolverFacts.

Lemma same_handle (els : list Resolver.Element) :
  NoDup (map Resolver.handle els) ->
  forall a b, In a els -> In b els ->
              Resolver.handle a = Resolver.handle b -> a = b.
Proof.
  induction els as [|e els IH]; intros Hnd a b; cbn [In map] in *.
  - intros [].
  - inversion Hnd as [|h hs Hnotin Hnd']; subst.
    intros [<- | Ha] [<- | Hb] Hh; auto.
    + exfalso. apply Hnotin. rewrite Hh. apply in_map, Hb.
    + exfalso. apply Hnotin. rewrite <- Hh. apply in_map, Ha.
Qed.

(** C5. An element that matches a forbidden signal of the descriptor is never
    the Candidate [resolve] returns, whatever score goes with it; the
    Candidate returned is an element that is not disqualified and clears the
    minimum-score threshold, scores at least as high as every other such
    element, and strictly higher than those before it in document order;
    [NotFound] is returned exactly when no element qualifies. *)
Theorem resolve_never_forbidden (r : Resolver.RoleDescriptor)
    (els : list Resolver.Element) :
  (NoDup (map Resolver.handle els) ->
   forall e sc, In e els -> Resolver.disqualified r e = true ->
     Resolver.resolve r els
     <> Resolver.Found (Resolver.mkCandidate (Resolver.handle e) sc)) /\
  (forall c, Resolver.resolve r els = Resolver.Found c ->
     exists before e after,
       els = before ++ e :: after /\
       c = Resolver.mkCandidate (Resolver.handle e) (Resolver.score r e) /\
       Resolver.disqualified r e = false /\
       Resolver.clears r e = true /\
       (forall x, In x before -> Resolver.eligible r x = true ->
                  (Resolver.score r x < Resolver.score r e)%Z) /\
       (forall x, In x after -> Resolver.eligible r x = true ->
                  (Resolver.score r x <= Resolver.score r e)%Z)) /\
  (Resolver.resolve r els = Resolver.NotFound <->
   forall x, In x els -> Resolver.eligible r x = false).
Proof.
  assert (forall c, Resolver.resolve r els = Resolver.Found c ->
     exists before e after,
       els = before ++ e :: after /\
       c = Resolver.mkCandidate (Resolver.handle e) (Resolver.score r e) /\
       Resolver.disqualified r e = false /\
       Resolver.clears r e = true /\
       (forall x, In x before -> Resolver.eligible r x = true ->
                  (Resolver.score r x < Resolver.score r e)%Z) /\
       (forall x, In x after -> Resolver.eligible r x = true ->
                  (Resolver.score r x <= Resolver.score r e)%Z)) as Hfound.
  { intros c. unfold Resolver.resolve.
    destruct (Resolver.pick r els) as [e|] eqn:E; [|discriminate].
    intros [= <-].
    destruct (@pick_some r els e E) as (bf & af & Hs & He & Hb & Ha).
    destruct (eligible_not_disqualified r e He) as [Hd Hc].
    exists bf, e, af. repeat split; auto. }
  split; [|split].
  - intros Hnd e sc Hin Hdis Hres.
    destruct (Hfound _ Hres) as (bf & e' & af & Hs & Hc & Hd & _).
    injection Hc as Hh _.
    assert (In e' els) as Hin' by (rewrite Hs; apply in_elt).
    rewrite (@same_handle els Hnd e e' Hin Hin' Hh) in Hdis. congruence.
  - exact Hfound.
  - unfold Resolver.resolve. rewrite <- pick_none.
    destruct (Resolver.pick r els); split; congruence.
Qed.

Lemma resolve_never_forbidden_witness :
  let els := [cancel_el; label_el; send_el] in
  NoDup (map Resolver.handle els) /\
  Resolver.disqualified send_button cancel_el = true /\
  Resolver.score send_button cancel_el = 14%Z /\
  Resolver.resolve send_button els
  <> Resolver.Found (Resolver.mkCandidate (Resolver.handle cancel_el) 14) /\
  Resolver.resolve send_button els
  = Resolver.Found (Resolver.mkCandidate 3 10).
Proof.
  intros els.
  assert (NoDup (map Resolver.handle els)) as Hnd.
  { cbn. repeat constructor; cbn; intuition discriminate. }
  split; [exact Hnd|]. split; [reflexivity|]. split; [reflexivity|]. split.
  - apply (proj1 (resolve_never_forbidden send_button els) Hnd).
    + left; reflexivity.
    + reflexivity.
  - reflexivity.
Defined.

Section ExecutorFacts.
Import Resolver Executor.

Variable table : string -> RoleDescriptor.
Variable dom : list Element.

(** Resolution makes search calls only. *)
Lemma resolve_all_reads (roles : list string) :
  writes (fst (resolve_all table dom roles)) = [].
Proof.
  induction roles as [|r rs IH]; cbn [resolve_all]; auto.
  destruct (resolve (table r) dom); auto.
  destruct (resolve_all table dom rs) as [calls res]. exact IH.
Qed.

Lemma resolve_all_none (roles : list string) :
  snd (resolve_all table dom roles) = None <->
  exists r, In r roles /\ resolve (table r) dom = NotFound.
Proof.
  induction roles as [|r rs IH]; cbn [resolve_all].
  - split; [discriminate | intros (r & [] & _)].
  - destruct (resolve (table r) dom) as [|c] eqn:E.
    + split; auto. intros _. exists r. split; auto. left; reflexivity.
    + destruct (resolve_all table dom rs) as [calls res]. cbn [snd] in *.
      split.
      * intros H. destruct res; [discriminate|].
        destruct (proj1 IH eq_refl) as (r' & Hin & Hr).
        exists r'. split; auto. right; exact Hin.
      * intros (r' & [<- | Hin] & Hr); [congruence|].
        rewrite (proj2 IH); auto. exists r'. auto.
Qed.

Lemma run_resolves (c : command) :
  (forall text, c = send text -> is_blank text = false) ->
  run table dom c
  = match resolve_all table dom (needs c) with
    | (calls, None) => (Failed RNotFound, calls)
    | (calls, Some cs) => (Ok, calls ++ drive c cs ++ [ReadAppState])
    end.
Proof.
  intros H. destruct c as [t| | | |]; try reflexivity.
  cbn [run]. rewrite (H t eq_refl). reflexivity.
Qed.

(** Blank text is refused before any protocol call. *)
Lemma send_blank (text : string) :
  is_blank text = true ->
  run table dom (send text) = (Failed REmptyInput, []).
Proof. intros H. cbn [run]. rewrite H. reflexivity. Qed.

End ExecutorFacts.

(** C6. When the resolution of a role the operation needs fails with
    [NotFound], the operation returns [Failed NotFound] and makes no protocol
    write (for [send], given text that is not blank: blank text is refused
    before resolution starts). *)
Theorem not_found_no_write (table : string -> Resolver.RoleDescriptor)
    (dom : list Resolver.Element) (c : Executor.command) :
  (exists r, In r (Executor.needs c) /\
             Resolver.resolve (table r) dom = Resolver.NotFound) ->
  (forall text, c = Executor.send text -> Executor.is_blank text = false) ->
  fst (Executor.run table dom c) = Executor.Failed Executor.RNotFound /\
  Executor.writes (snd (Executor.run table dom c)) = [].
Proof.
  intros Hnf Hb. rewrite (run_resolves table dom Hb).
  apply resolve_all_none in Hnf.
  pose proof (resolve_all_reads table dom (Executor.needs c)) as Hr.
  destruct (Executor.resolve_all table dom (Executor.needs c)) as [calls res].
  cbn [fst snd] in *. subst res. auto.
Qed.

Lemma not_found_no_write_witness :
  Resolver.resolve (scenario_table "send-button") scenario_dom
  = Resolver.NotFound /\
  Executor.run scenario_table scenario_dom (Executor.send "hello")
  = (Executor.Failed Executor.RNotFound,
     [Executor.Search "chat-input"; Executor.Search "send-button"]) /\
  Executor.writes
    (snd (Executor.run scenario_table scenario_dom (Executor.send "hello")))
  = [].
Proof.
  assert (Resolver.resolve (scenario_table "send-button") scenario_dom
          = Resolver.NotFound) as Hnf by reflexivity.
  split; [exact Hnf|]. split; [reflexivity|].
  apply (@not_found_no_write scenario_table scenario_dom
           (Executor.send "hello")).
  - exists "send-button"%string. split; [right; left; reflexivity | exact Hnf].
  - intros text [= <-]. reflexivity.
Defined.


(** * Further properties of the client *)

(** ** Text without markup *)

Lemma rmatch_first (ic : bool) (r : regex) : forall c pos s caps k,
  first_cu r = Some c ->
  match s with [] => True | x :: _ => cu_eqb ic c x = false end ->
  rmatch ic r pos s caps k = None.
Proof.
  induction r as [|p|r1 IH1 r2 IH2|r1 IH1 r2 IH2|g lo hi p|i r1 IH1|];
    intros c pos s caps k Hf Hs; cbn [first_cu] in Hf; try discriminate.
  - destruct p; try discriminate. injection Hf as ->.
    cbn [rmatch]. destruct s as [|x s']; auto.
    cbn [member]. rewrite Hs. reflexivity.
  - cbn [rmatch]. apply (IH1 c); assumption.
  - cbn [rmatch]. apply (IH1 c); assumption.
Qed.

Lemma replace_go_no_match ic r f c : forall s pos,
  first_cu r = Some c ->
  (forall x, In x s -> cu_eqb ic c x = false) ->
  replace_go ic r f pos 0 s = s.
Proof.
  induction s as [|x s IH]; intros pos Hf Hs; cbn [replace_go]; unfold exec_at.
  - rewrite (@rmatch_first ic r c); auto.
  - rewrite (@rmatch_first ic r c); auto.
    + f_equal. apply IH; auto. intros y Hy. apply Hs. right; exact Hy.
    + apply Hs. left; reflexivity.
Qed.

Lemma cu_eqb_other (ic : bool) (c x : cu) :
  c = LT \/ c = AMP -> x <> c -> cu_eqb ic c x = false.
Proof.
  intros Hc Hx. unfold cu_eqb, LT, AMP in *. destruct ic.
  - apply N.eqb_neq. unfold canon.
    destruct (N.leb 97 x && N.leb x 122) eqn:E.
    + apply andb_true_iff in E. destruct E as [E1 E2].
      apply N.leb_le in E1, E2. destruct Hc as [-> | ->]; cbn; lia.
    + destruct Hc as [-> | ->]; cbn; congruence.
  - apply N.eqb_neq. congruence.
Qed.

Lemma replace_fn_without ic r f c s :
  c = LT \/ c = AMP -> first_cu r = Some c -> ~ In c s ->
  replace_fn ic r f s = s.
Proof.
  intros Hc Hf Hs. unfold replace_fn.
  apply (@replace_go_no_match ic r f c); auto.
  intros x Hx. apply cu_eqb_other; auto. intros ->. contradiction.
Qed.

Lemma replace_tpl_without ic r t c s :
  c = LT \/ c = AMP -> first_cu r = Some c -> ~ In c s ->
  replace_tpl ic r t s = s.
Proof. intros. unfold replace_tpl. eapply replace_fn_without; eauto. Qed.

Lemma decodeEntities_without (s : jsstring) :
  ~ In AMP s -> decodeEntities s = s.
Proof.
  intros H. unfold decodeEntities. cbv zeta.
  repeat rewrite (@replace_tpl_without false _ _ AMP s (or_intror eq_refl))
    by (first [reflexivity | exact H]).
  apply (@replace_fn_without false _ _ AMP s (or_intror eq_refl));
    [reflexivity | exact H].
Qed.

Lemma strip_tags_without (s : jsstring) : ~ In LT s -> strip_tags s = s.
Proof.
  intros H. unfold strip_tags.
  apply (@replace_tpl_without false _ _ LT s (or_introl eq_refl));
    [reflexivity | exact H].
Qed.

Lemma run_three (s : jsstring) :
  3 <= run s -> exists b, s = NL :: NL :: NL :: b.
Proof.
  destruct s as [|x [|y [|z b]]]; cbn [run]; try lia;
    destruct (N.eqb x NL) eqn:Ex; try lia;
    try (destruct (N.eqb y NL) eqn:Ey; try lia);
    try (destruct (N.eqb z NL) eqn:Ez; try lia).
  intros _. apply N.eqb_eq in Ex, Ey, Ez. subst. eauto.
Qed.

Lemma short_runs_complete (s : jsstring) : ~ nl_run3 s -> short_runs s = true.
Proof.
  induction s as [|x s IH]; intros H; cbn [short_runs]; auto.
  apply andb_true_iff. split.
  - apply Nat.ltb_lt. destruct (Nat.lt_ge_cases (run (x :: s)) 3) as [L|G]; auto.
    exfalso. apply H. destruct (run_three _ G) as [b Hb].
    exists [], b. exact Hb.
  - apply IH. intros (a & b & E). apply H. exists (x :: a), b.
    rewrite E. reflexivity.
Qed.

Lemma squeeze_short (s : jsstring) : forall pos,
  short_runs s = true -> squeeze pos s = s.
Proof.
  unfold squeeze. induction s as [|x s IH]; intros pos H;
    cbn [replace_go]; rewrite exec_nl3.
  - reflexivity.
  - cbn [short_runs] in H. apply andb_true_iff in H. destruct H as [L H].
    apply Nat.ltb_lt in L.
    destruct (Nat.leb 3 (run (x :: s))) eqn:E.
    + apply Nat.leb_le in E. lia.
    + f_equal. apply IH, H.
Qed.

(** X1. Text without markup: when the input holds neither [<] nor [&],
    [htmlToText] only squeezes the runs of newlines and trims; when the
    input has no run of three newlines either, the result is the trimmed
    input. *)
Theorem htmlToText_plain (s : jsstring) :
  ~ In LT s -> ~ In AMP s ->
  htmlToText (Some s) = trim (replace_tpl false nl3_re [T [NL; NL]] s) /\
  (~ nl_run3 s -> htmlToText (Some s) = trim s).
Proof.
  intros Hl Ha.
  assert (convert s = trim (replace_tpl false nl3_re [T [NL; NL]] s)) as Hc.
  { unfold convert. cbv zeta.
    repeat first
      [ rewrite (@replace_tpl_without true _ _ LT s (or_introl eq_refl))
          by (first [reflexivity | exact Hl])
      | rewrite (@replace_fn_without true _ _ LT s (or_introl eq_refl))
          by (first [reflexivity | exact Hl]) ].
    rewrite (@strip_tags_without s Hl), (@decodeEntities_without s Ha).
    reflexivity. }
  assert (htmlToText (Some s)
          = trim (replace_tpl false nl3_re [T [NL; NL]] s)) as Hh.
  { destruct s as [|x s']; [reflexivity | exact Hc]. }
  split; [exact Hh|].
  intros Hn. rewrite Hh. f_equal.
  apply (@squeeze_short s 0), short_runs_complete, Hn.
Qed.

Lemma htmlToText_plain_witness :
  let s := u "  You: hello" ++ [NL; NL] ++ u "world " in
  ~ In LT s /\ ~ In AMP s /\ ~ nl_run3 s /\
  htmlToText (Some s) = u "You: hello" ++ [NL; NL] ++ u "world".
Proof.
  intros s.
  assert (~ In LT s) as Hl by (vm_compute; intuition discriminate).
  assert (~ In AMP s) as Ha by (vm_compute; intuition discriminate).
  assert (~ nl_run3 s) as Hn by (apply short_runs_sound; reflexivity).
  split; [exact Hl|]. split; [exact Ha|]. split; [exact Hn|].
  transitivity (trim s);
    [exact (proj2 (@htmlToText_plain s Hl Ha) Hn) | vm_compute; reflexivity].
Defined.

(** X2. [decodeEntities] leaves a string without [&] as it is, and the tag
    stripping of [htmlToText] leaves a string without [<] as it is. *)
Theorem decodeEntities_plain (s : jsstring) :
  (~ In AMP s -> decodeEntities s = s) /\
  (~ In LT s -> strip_tags s = s).
Proof.
  split; [apply decodeEntities_without | apply strip_tags_without].
Qed.

Lemma decodeEntities_plain_witness :
  ~ In AMP (u "a < b") /\ decodeEntities (u "a < b") = u "a < b".
Proof.
  assert (~ In AMP (u "a < b")) as Ha by (vm_compute; intuition discriminate).
  split; [exact Ha|].
  apply (proj1 (decodeEntities_plain (u "a < b"))). exact Ha.
Defined.

(** ** Numeric character references *)

(** A greedy run of digits followed by something else takes all the digits
    when the continuation accepts there. *)
Lemma rep_digits (ds rest : jsstring) (caps : caps) (k : cont) (res : mres) :
  forall lo pos,
  forallb is_digit ds = true ->
  lo <= List.length ds ->
  match rest with [] => True | x :: _ => is_digit x = false end ->
  k (pos + List.length ds) rest caps = Some res ->
  rep false true Digit lo None pos (ds ++ rest) caps k = Some res.
Proof.
  induction ds as [|d ds IH]; intros lo pos Hd Hlo Hr Hk.
  - cbn [List.length] in *. assert (lo = 0) as -> by lia.
    rewrite Nat.add_0_r in Hk. cbn [app].
    destruct rest as [|x rest']; cbn [rep]; auto.
    cbn [member]. rewrite Hr. cbn [andb]. exact Hk.
  - cbn [forallb] in Hd. apply andb_true_iff in Hd. destruct Hd as [Hd1 Hd].
    cbn [app rep member may_repeat dec_hi]. rewrite Hd1. cbn [andb].
    rewrite (IH (pred lo) (S pos)); auto.
    + cbn [List.length] in Hlo. lia.
    + cbn [List.length] in Hk. rewrite <- Hk. f_equal. lia.
Qed.

Lemma digit_not_amp (x : cu) : is_digit x = true -> N.eqb AMP x = false.
Proof.
  unfold is_digit, AMP. rewrite andb_true_iff, !N.leb_le, N.eqb_neq. lia.
Qed.

Lemma entity_tail_no_amp (ds : jsstring) :
  forallb is_digit ds = true ->
  forall x, In x (HASH :: ds ++ [SEMI]) -> cu_eqb false AMP x = false.
Proof.
  intros Hd x [<- | Hx]; [reflexivity|].
  apply in_app_or in Hx. destruct Hx as [Hx | [<- | []]]; [|reflexivity].
  rewrite forallb_forall in Hd. apply digit_not_amp, Hd, Hx.
Qed.

Lemma replace_go_cons_none ic r f pos x s :
  exec_at ic r pos (x :: s) = None ->
  replace_go ic r f pos 0 (x :: s) = x :: replace_go ic r f (S pos) 0 s.
Proof. intros H. cbn [replace_go]. rewrite H. reflexivity. Qed.

(** A pattern that starts with [&] and fails at the head of the reference
    leaves it unchanged. *)
Lemma replace_entity_unchanged (r : regex) (f : jsstring -> caps -> jsstring)
    (ds : jsstring) :
  first_cu r = Some AMP ->
  forallb is_digit ds = true ->
  exec_at false r 0 (entity ds) = None ->
  replace_fn false r f (entity ds) = entity ds.
Proof.
  intros Hf Hd He. unfold replace_fn, entity in *.
  rewrite replace_go_cons_none by exact He. f_equal.
  apply (@replace_go_no_match false r f AMP); auto.
  apply entity_tail_no_amp, Hd.
Qed.

(** A literal run matches exactly where the subject starts with it. *)
Lemma rmatch_Lit (p : jsstring) : forall pos s c k,
  rmatch false (Lit p) pos s c k
  = if startsWith s p
    then k (pos + List.length p) (skipn (List.length p) s) c
    else None.
Proof.
  induction p as [|x p IH]; intros pos s c k.
  - destruct s; cbn; rewrite Nat.add_0_r; reflexivity.
  - destruct p as [|y p].
    + cbn [Lit rmatch member startsWith List.length skipn].
      destruct s as [|a s]; [reflexivity|]. unfold cu_eqb.
      cbn [startsWith].
      destruct (N.eqb x a); cbn [andb]; [|reflexivity].
      destruct s; cbn [startsWith skipn]; rewrite Nat.add_1_r; reflexivity.
    + change (Lit (x :: y :: p)) with (Seq (Chr (One x)) (Lit (y :: p))).
      cbn [rmatch member]. destruct s as [|a s]; [reflexivity|].
      unfold cu_eqb. cbn [startsWith].
      destruct (N.eqb x a); cbn [andb]; [|reflexivity].
      rewrite IH. change (List.length (x :: y :: p)) with (S (List.length (y :: p))).
      rewrite Nat.add_succ_r. reflexivity.
Qed.

Lemma exec_Lit (p : jsstring) (pos : nat) (s : jsstring) :
  exec_at false (Lit p) pos s
  = if startsWith s p then Some (List.length p, []) else None.
Proof.
  unfold exec_at. rewrite rmatch_Lit.
  destruct (startsWith s p); auto. f_equal. f_equal. lia.
Qed.

Lemma apostrophe_fails (ds : jsstring) :
  forallb is_digit ds = true ->
  ds <> [51; 57]%N ->
  exec_at false (lit "&#39;") 0 (entity ds) = None.
Proof.
  intros Hd Hne. unfold lit. rewrite exec_Lit.
  change (u "&#39;") with [38; 35; 51; 57; 59]%N.
  unfold entity. cbn [startsWith].
  change (N.eqb 38 AMP) with true. change (N.eqb 35 HASH) with true.
  cbn [andb].
  destruct ds as [|d1 [|d2 [|d3 ds]]]; cbn [app startsWith].
  - reflexivity.
  - destruct (N.eqb 51 d1); reflexivity.
  - destruct (N.eqb 51 d1) eqn:E1; [|reflexivity].
    destruct (N.eqb 57 d2) eqn:E2; [|reflexivity].
    apply N.eqb_eq in E1, E2. subst. exfalso. apply Hne. reflexivity.
  - assert (N.eqb 59 d3 = false) as E3.
    { cbn [forallb] in Hd.
      repeat (apply andb_true_iff in Hd; destruct Hd as [? Hd]).
      unfold is_digit in *. apply N.eqb_neq.
      repeat match goal with
             | H : (_ && _)%bool = true |- _ =>
                 apply andb_true_iff in H; destruct H
             | H : N.leb _ _ = true |- _ => apply N.leb_le in H
             end. lia. }
    rewrite E3.
    destruct (N.eqb 51 d1); [|reflexivity].
    destruct (N.eqb 57 d2); reflexivity.
Qed.

Lemma startsWith_nil (s : jsstring) : startsWith s [] = true.
Proof. destruct s; reflexivity. Qed.

Lemma exec_numeric (ds : jsstring) :
  forallb is_digit ds = true -> ds <> [] ->
  exec_at false numeric_re 0 (entity ds)
  = Some (3 + List.length ds, [(1, ds)]).
Proof.
  intros Hd Hne. unfold exec_at, numeric_re, entity.
  cbn [seqs rmatch]. unfold lit at 1. rewrite rmatch_Lit.
  change (u "&#") with [AMP; HASH]. cbn [startsWith List.length skipn].
  rewrite !N.eqb_refl, startsWith_nil. cbn [andb Nat.add]. unfold Plus.
  cbn [rmatch].
  erewrite rep_digits; [reflexivity | exact Hd | | reflexivity |].
  - destruct ds; [congruence | cbn [List.length]; lia].
  - cbn beta. unfold lit. rewrite rmatch_Lit.
    change (u ";") with [SEMI]. cbn [startsWith List.length skipn].
    rewrite N.eqb_refl. cbn [andb].
    replace (2 + List.length ds - 2) with (List.length ds) by lia.
    rewrite firstn_app, firstn_all, Nat.sub_diag. cbn [firstn].
    rewrite app_nil_r. f_equal. f_equal. lia.
Qed.

Lemma replace_numeric (ds : jsstring) :
  forallb is_digit ds = true -> ds <> [] ->
  replace_fn false numeric_re
    (fun _ c => fromCharCode (to_number (digits_value (cap 1 c)))) (entity ds)
  = fromCharCode (to_number (digits_value ds)).
Proof.
  intros Hd Hne. unfold replace_fn.
  pose proof (exec_numeric Hd Hne) as He. unfold entity in *.
  cbn [replace_go]. rewrite He. cbn [Nat.add cap Nat.eqb].
  rewrite replace_go_skip.
  - rewrite skipn_all2.
    + cbn [replace_go]. unfold exec_at.
      rewrite (@rmatch_first false numeric_re AMP); auto.
      apply app_nil_r.
    + cbn [List.length]. rewrite length_app. cbn [List.length]. lia.
  - cbn [List.length]. rewrite length_app. cbn [List.length]. lia.
Qed.

(** X3. A numeric character reference [&#ds;] with decimal digits [ds]
    decodes to one code unit: the value of the digits as a Number, modulo
    65536 (zero when the value overflows to Infinity); below 2^53 that is
    the exact value modulo 65536. *)
Theorem decodeEntities_numeric (ds : jsstring) :
  forallb is_digit ds = true -> ds <> [] ->
  decodeEntities (entity ds) = fromCharCode (to_number (digits_value ds)) /\
  ((digits_value ds < 2 ^ 53)%N ->
   decodeEntities (entity ds) = [(digits_value ds mod 65536)%N]).
Proof.
  intros Hd Hne.
  assert (decodeEntities (entity ds)
          = fromCharCode (to_number (digits_value ds))) as H.
  { destruct (list_eq_dec N.eq_dec ds [51; 57]%N) as [-> | Hap].
    - vm_compute. reflexivity.
    - unfold decodeEntities. cbv zeta. unfold replace_tpl.
      rewrite (@replace_entity_unchanged (lit "&amp;")) by
        (first [reflexivity | exact Hd]).
      rewrite (@replace_entity_unchanged (lit "&lt;")) by
        (first [reflexivity | exact Hd]).
      rewrite (@replace_entity_unchanged (lit "&gt;")) by
        (first [reflexivity | exact Hd]).
      rewrite (@replace_entity_unchanged (lit "&quot;")) by
        (first [reflexivity | exact Hd]).
      rewrite (@replace_entity_unchanged (lit "&#39;")) by
        (first [reflexivity | exact Hd | exact (apostrophe_fails Hd Hap)]).
      rewrite (@replace_entity_unchanged (lit "&nbsp;")) by
        (first [reflexivity | exact Hd]).
      apply (replace_numeric Hd Hne). }
  split; [exact H|].
  intros Hlt. rewrite H. unfold to_number.
  apply N.ltb_lt in Hlt. rewrite Hlt. reflexivity.
Qed.

Lemma decodeEntities_numeric_witness :
  forallb is_digit (u "0065601") = true /\ u "0065601" <> [] /\
  decodeEntities (entity (u "0065601")) = u "A".
Proof.
  assert (forallb is_digit (u "0065601") = true) as Hd by reflexivity.
  assert (u "0065601" <> []) as Hne by discriminate.
  split; [exact Hd|]. split; [exact Hne|].
  rewrite (proj2 (decodeEntities_numeric Hd Hne)); [reflexivity|].
  vm_compute. reflexivity.
Defined.

(** ** The lines of the chat *)

Lemma join_split (s : jsstring) : join_nl (split_nl s) = s.
Proof.
  induction s as [|c s IH]; [reflexivity|]. cbn [split_nl].
  destruct (N.eqb c NL) eqn:E.
  - apply N.eqb_eq in E. subst c.
    destruct (split_nl s) as [|l ls] eqn:Es.
    + cbn in IH. subst s. discriminate.
    + rewrite <- IH. reflexivity.
  - destruct (split_nl s) as [|l ls] eqn:Es.
    + cbn in IH. subst s. reflexivity.
    + rewrite <- IH. destruct ls; reflexivity.
Qed.

Lemma split_line (l rest : jsstring) :
  ~ In NL l -> split_nl (l ++ NL :: rest) = l :: split_nl rest.
Proof.
  induction l as [|c l IH]; intros H; cbn [app split_nl].
  - rewrite N.eqb_refl. reflexivity.
  - destruct (N.eqb c NL) eqn:E.
    + apply N.eqb_eq in E. exfalso. apply H. left. auto.
    + rewrite IH; [reflexivity|]. intros Hin. apply H. right; exact Hin.
Qed.

Lemma split_single (l : jsstring) : ~ In NL l -> split_nl l = [l].
Proof.
  induction l as [|c l IH]; intros H; cbn [split_nl]; [reflexivity|].
  destruct (N.eqb c NL) eqn:E.
  - apply N.eqb_eq in E. exfalso. apply H. left. auto.
  - rewrite IH; [reflexivity|]. intros Hin. apply H. right; exact Hin.
Qed.

Lemma split_join (ls : list jsstring) :
  ls <> [] -> Forall (fun l => ~ In NL l) ls ->
  split_nl (join_nl ls) = ls.
Proof.
  induction ls as [|l ls IH]; intros Hne Hall; [congruence|].
  inversion Hall as [|? ? Hl Hls]; subst.
  destruct ls as [|l' ls].
  - cbn [join_nl]. apply split_single, Hl.
  - change (join_nl (l :: l' :: ls)) with (l ++ NL :: join_nl (l' :: ls)).
    rewrite split_line by exact Hl. rewrite IH; auto. discriminate.
Qed.

Lemma split_pieces (s : jsstring) :
  split_nl s <> [] /\ Forall (fun l => ~ In NL l) (split_nl s).
Proof.
  induction s as [|c s [Hne Hall]]; cbn [split_nl].
  - split; [discriminate|]. constructor; auto.
  - destruct (N.eqb c NL) eqn:E.
    + split; [discriminate|]. constructor; auto.
    + destruct (split_nl s) as [|l ls]; [congruence|].
      split; [discriminate|].
      inversion Hall as [|? ? Hl Hls]; subst. constructor; auto.
      intros [Hc | Hin]; [|auto].
      subst c. rewrite N.eqb_refl in E. discriminate.
Qed.

Lemma color_line_shape (line : jsstring) :
  color_line line = line \/
  exists p, In p [u "{cyan-fg}{bold}"; u "{yellow-fg}"; u "{green-fg}{bold}";
                  u "{white-fg}"] /\
            color_line line = p ++ line ++ u "{/}".
Proof.
  unfold color_line.
  destruct (matches true user_re line);
    [right; eexists; split; [|reflexivity]; cbn; auto|].
  destruct (startsWith line (u "```"));
    [right; eexists; split; [|reflexivity]; cbn; auto|].
  destruct (startsWith line (u "#"));
    [right; eexists; split; [|reflexivity]; cbn; auto|].
  destruct (startsWith (trimStart line) [BULLET]);
    [right; eexists; split; [|reflexivity]; cbn; auto 6|].
  left; reflexivity.
Qed.

Lemma color_line_one_line (line : jsstring) :
  ~ In NL line -> ~ In NL (color_line line).
Proof.
  intros H. destruct (color_line_shape line) as [-> | (p & Hp & ->)]; auto.
  intros Hin. apply in_app_or in Hin. destruct Hin as [Hin | Hin].
  - cbn [In] in Hp.
    destruct Hp as [<- | [<- | [<- | [<- | []]]]];
      vm_compute in Hin; intuition discriminate.
  - apply in_app_or in Hin. destruct Hin as [Hin | Hin]; auto.
    vm_compute in Hin. intuition discriminate.
Qed.

(** X4. Colouring keeps the lines of the text: the coloured content, split
    at the newlines again, is the list of the lines of the text, each
    coloured on its own; each coloured line is the line itself or the line
    between a colour tag and the closing tag; joining the lines of a text
    gives the text back. *)
Theorem colorize_lines (text : jsstring) :
  split_nl (colorize text) = map color_line (split_nl text) /\
  List.length (split_nl (colorize text)) = List.length (split_nl text) /\
  (forall line, color_line line = line \/
                exists p, color_line line = p ++ line ++ u "{/}") /\
  join_nl (split_nl text) = text.
Proof.
  assert (split_nl (colorize text) = map color_line (split_nl text)) as H.
  { unfold colorize. destruct (split_pieces text) as [Hne Hall].
    apply split_join.
    - destruct (split_nl text); [congruence | discriminate].
    - rewrite Forall_forall in *. intros l Hl.
      apply in_map_iff in Hl. destruct Hl as (l0 & <- & Hl0).
      apply color_line_one_line, Hall, Hl0. }
  split; [exact H|]. split; [rewrite H; apply length_map|].
  split; [|apply join_split].
  intros line. destruct (color_line_shape line) as [-> | (p & _ & ->)]; eauto.
Qed.

(** ** refreshSnapshot *)

Lemma renderChat_frame (html : option jsstring) (st : state) :
  currentMode (fst (renderChat html st)) = currentMode st /\
  currentModel (fst (renderChat html st)) = currentModel st /\
  connected (fst (renderChat html st)) = connected st /\
  cdpConnected (fst (renderChat html st)) = cdpConnected st.
Proof.
  unfold renderChat.
  destruct (str_eqb (htmlToText html) (lastChatText st)); auto.
Qed.




Lemma prop_defined (v : value) (k k' : string) (a : value) :
  prop v k = Some a -> prop v k' <> None.
Proof.
  destruct v; cbn; try discriminate.
  intros _. destruct (lookup (u k') fields); discriminate.
Qed.

Ltac snapshot_cases r st :=
  destruct r as [|?snap]; cbn [refreshSnapshot_resume unusable];
  [| destruct (prop snap "html") as [?h|] eqn:?Hh;
     [ destruct (truthy h) eqn:?Ht;
       [ destruct h as [| |?b|?z|?s|?l|?l];
         cbn [is_string negb andb] in *; try discriminate
       | destruct (prop snap "error") as [?e|] eqn:?He;
         [ destruct (truthy e) eqn:?Hte
         | exfalso; apply (@prop_defined snap "html" "error" h Hh);
           assumption ] ]
     | ] ];
  try match goal with
      | |- context [renderChat (Some ?x) st] =>
          pose proof (renderChat_frame (Some x) st) as (?F1 & ?F2 & ?F3 & ?F4);
          pose proof (renderChat_lastChatText (Some x) st) as ?L;
          destruct (renderChat (Some x) st) as [?st1 ?effs];
          cbn [fst snd] in *
      end.

Lemma refreshSnapshot_keeps (r : reply) (st : state) :
  currentMode (fst (refreshSnapshot_resume r st)) = currentMode st /\
  currentModel (fst (refreshSnapshot_resume r st)) = currentModel st /\
  cdpConnected (fst (refreshSnapshot_resume r st)) = cdpConnected st.
Proof. snapshot_cases r st; cbn; auto. Qed.







(** ** Sending *)

Lemma not_blank_trim (text : jsstring) : ~ blank text -> trim text <> [].
Proof. intros H E. apply H, trim_nil_blank, E. Qed.

Lemma trim_trim_not_nil (text : jsstring) :
  trim text <> [] -> trim (trim text) <> [].
Proof.
  intros H E. apply (@trim_not_blank text H). apply trim_nil_blank, E.
Qed.

(** X7. [sendMessage] posts to [/send] exactly when the text is not blank,
    and then posts the text as given, after the sending feedback; the submit
    handler posts the trimmed value, which has no white space at either end,
    and clears and refocuses the input in the same turn. *)
Theorem sendMessage_posts (text : jsstring) (st : state) :
  (request_of (sendMessage text st) <> None <-> ~ blank text) /\
  (~ blank text ->
   sendMessage text st
   = Awaiting st [ShowFeedback FSending "yellow"]
       (Post "/send" (VObj [(u "message", VStr text)])) sendMessage_resume) /\
  (~ blank text ->
   on_submit text st
   = Awaiting st
       [ShowFeedback FSending "yellow"; ClearValue; FocusInput; Render]
       (Post "/send" (VObj [(u "message", VStr (trim text))]))
       sendMessage_resume /\
   ~ leading_ws (trim text) /\ ~ trailing_ws (trim text)).
Proof.
  assert (~ blank text ->
          sendMessage text st
          = Awaiting st [ShowFeedback FSending "yellow"]
              (Post "/send" (VObj [(u "message", VStr text)]))
              sendMessage_resume) as Hsend.
  { intros H. apply (@not_blank_trim text) in H. unfold sendMessage.
    destruct (trim text); [congruence | reflexivity]. }
  split; [|split].
  - split.
    + intros H Hb. apply H. unfold sendMessage.
      rewrite (@trim_blank text Hb). reflexivity.
    + intros H. rewrite (Hsend H). discriminate.
  - exact Hsend.
  - intros H. split; [|split; [apply trim_no_leading | apply trim_no_trailing]].
    pose proof (@not_blank_trim text H) as Ht.
    pose proof (@trim_trim_not_nil text Ht) as Htt.
    unfold on_submit, submit_call, sendMessage.
    destruct (trim text) as [|c t] eqn:E; [congruence|].
    destruct (trim (c :: t)); [congruence | reflexivity].
Qed.

Lemma sendMessage_posts_witness :
  ~ blank (u "  hello  ") /\
  request_of (on_submit (u "  hello  ") init)
  = Some (Post "/send" (VObj [(u "message", VStr (u "hello"))])).
Proof.
  assert (~ blank (u "  hello  ")) as H by (vm_compute; discriminate).
  split; [exact H|].
  destruct (proj2 (proj2 (sendMessage_posts (u "  hello  ") init)) H)
    as [E _].
  rewrite E. reflexivity.
Defined.

(** X8. The reply to a send never changes the client state; the two
    snapshot refreshes (after 500 and 1500 ms) are scheduled exactly when
    the reply resolves with a truthy [success], and in every case exactly
    one feedback message is shown. *)
Theorem sendMessage_reply (r : reply) (st : state) :
  let sent := exists res ok, r = Resolved res /\
                prop res "success" = Some ok /\ truthy ok = true in
  fst (sendMessage_resume r st) = st /\
  (sent ->
   snd (sendMessage_resume r st)
   = [ShowFeedback FSent "green"; SetTimeout CbRefreshSnapshot 500;
      SetTimeout CbRefreshSnapshot 1500]) /\
  (~ sent ->
   exists m, snd (sendMessage_resume r st) = [ShowFeedback m "red"]).
Proof.
  intros sent. subst sent. destruct r as [|res]; cbn [sendMessage_resume].
  - repeat split.
    + intros (res & ok & H & _). discriminate.
    + intros _. eexists. reflexivity.
  - destruct (prop res "success") as [ok|] eqn:Hok.
    + destruct (truthy ok) eqn:Ht.
      * repeat split. intros H. exfalso. apply H. exists res, ok. auto.
      * destruct (prop res "error") as [err|] eqn:He.
        -- repeat split.
           ++ intros (res' & ok' & [= <-] & Hok' & Ht'). congruence.
           ++ intros _. eexists. reflexivity.
        -- exfalso. apply (@prop_defined res "success" "error" ok Hok He).
    + repeat split.
      * intros (res' & ok' & [= <-] & Hok' & Ht'). congruence.
      * intros _. eexists. reflexivity.
Qed.

Lemma sendMessage_reply_witness :
  let r := Resolved (VObj [(u "success", VBool false);
                           (u "error", VStr (u "busy"))]) in
  ~ (exists res ok, r = Resolved res /\
       prop res "success" = Some ok /\ truthy ok = true) /\
  snd (sendMessage_resume r init)
  = [ShowFeedback (FSendFailed (VStr (u "busy"))) "red"].
Proof.
  intros r.
  assert (~ (exists res ok, r = Resolved res /\
               prop res "success" = Some ok /\ truthy ok = true)) as H.
  { intros (res & ok & [= <-] & Hok & Ht). cbn in Hok.
    injection Hok as <-. discriminate. }
  split; [exact H|].
  destruct (proj2 (proj2 (sendMessage_reply r init)) H) as [m Hm].
  reflexivity.
Defined.

(** ** switchMode, whole calls *)

Lemma switchMode_accepted (r : reply) (st : state) :
  accepted r ->
  complete (switchMode st) r
  = set_mode (VStr (if is_str (currentMode st) "Fast"
                    then u "Planning" else u "Fast")) st.
Proof.
  intros (res & ok & -> & Hok & Hnf).
  unfold switchMode, complete. cbn [switchMode_resume].
  rewrite Hok, Hnf. reflexivity.
Qed.

Lemma switchMode_refused (r : reply) (st : state) :
  ~ accepted r -> complete (switchMode st) r = st.
Proof.
  intros H. unfold switchMode, complete.
  destruct r as [|res]; cbn [switchMode_resume]; [reflexivity|].
  destruct (prop res "success") as [ok|] eqn:Hok; [|reflexivity].
  destruct (not_false ok) eqn:Hnf.
  - exfalso. apply H. exists res, ok. auto.
  - destruct (prop res "error"); reflexivity.
Qed.

(** X9. A whole mode switch: a reply that is not accepted (a rejected
    request, a [null] body, [success: false]) leaves the state as it was;
    an accepted one (any other body, also one without a [success] field)
    sets the mode to [Fast] or [Planning], different from the mode before;
    two accepted switches in a row restore a mode that was [Fast] or
    [Planning], and end in [Planning] from any other mode. *)
Theorem switchMode_twice (r1 r2 : reply) (st : state) :
  let st1 := complete (switchMode st) r1 in
  let st2 := complete (switchMode st1) r2 in
  (~ accepted r1 -> st1 = st) /\
  (accepted r1 ->
   (currentMode st1 = VStr (u "Fast") \/
    currentMode st1 = VStr (u "Planning")) /\
   currentMode st1 <> currentMode st) /\
  (accepted r1 -> accepted r2 ->
   currentMode st2
   = (if is_str (currentMode st) "Fast"
      then VStr (u "Fast") else VStr (u "Planning")) /\
   (currentMode st = VStr (u "Fast") \/
    currentMode st = VStr (u "Planning") -> st2 = st)).
Proof.
  intros st1 st2. subst st1 st2. split; [|split].
  - apply switchMode_refused.
  - intros H. rewrite (@switchMode_accepted r1 st H).
    destruct (is_str (currentMode st) "Fast") eqn:E;
      cbn [currentMode set_mode].
    + apply is_str_eq in E. rewrite E. split; [auto | discriminate].
    + apply is_str_neq in E. split; [auto | congruence].
  - intros H1 H2. rewrite (@switchMode_accepted r2 _ H2).
    rewrite (@switchMode_accepted r1 st H1).
    destruct (is_str (currentMode st) "Fast") eqn:E;
      cbn [currentMode set_mode currentModel connected cdpConnected
           lastChatText chatContent].
    + change (is_str (VStr (u "Planning")) "Fast") with false.
      split; [reflexivity|]. intros _. apply is_str_eq in E.
      destruct st; cbn in *. subst. reflexivity.
    + change (is_str (VStr (u "Fast")) "Fast") with true.
      split; [reflexivity|]. intros [F | P].
      * apply is_str_neq in E. contradiction.
      * destruct st; cbn in *. subst. reflexivity.
Qed.

Lemma switchMode_twice_witness :
  let ok := Resolved (VObj []) in
  let st := set_mode (VStr (u "Planning")) init in
  accepted ok /\
  complete (switchMode (complete (switchMode st) ok)) ok = st /\
  currentMode (complete (switchMode (complete (switchMode init) ok)) ok)
  = VStr (u "Planning").
Proof.
  intros ok st.
  assert (accepted ok) as H by (exists (VObj []), VUndef; auto).
  split; [exact H|]. split.
  - apply (proj2 (proj2 (proj2 (switchMode_twice ok ok st)) H H)).
    right; reflexivity.
  - rewrite (proj1 (proj2 (proj2 (switchMode_twice ok ok init)) H H)).
    reflexivity.
Defined.

(** ** refreshHealth *)

(** X10. [refreshHealth] never marks the client connected (it can only
    clear the flag), and leaves the mode, the model and the chat alone; the
    CDP flag is truthy afterwards only when the reply's [cdpConnected] is
    truthy, whose value it then holds; a rejected request or a [null] body
    clears both flags. *)
Theorem refreshHealth_flags (r : reply) (st : state) :
  let st' := fst (refreshHealth_resume r st) in
  (connected st' = true -> connected st = true) /\
  currentMode st' = currentMode st /\
  currentModel st' = currentModel st /\
  lastChatText st' = lastChatText st /\
  chatContent st' = chatContent st /\
  (truthy (cdpConnected st') = true ->
   exists h v, r = Resolved h /\ prop h "cdpConnected" = Some v /\
               truthy v = true /\ cdpConnected st' = v) /\
  (r = Rejected \/ r = Resolved VNull ->
   connected st' = false /\ cdpConnected st' = VBool false) /\
  snd (refreshHealth_resume r st) = [UpdateStatus].
Proof.
  intros st'. subst st'. destruct r as [|h]; cbn [refreshHealth_resume].
  - cbn. repeat split; auto; discriminate.
  - destruct (prop h "cdpConnected") as [v|] eqn:Hv.
    + cbn. repeat split; auto.
      * unfold or_else. destruct (truthy v) eqn:Ht; [|discriminate].
        intros _. exists h, v. auto.
      * destruct H as [H | H]; [discriminate|].
        injection H as ->. discriminate.
      * destruct H as [H | H]; [discriminate|].
        injection H as ->. discriminate.
    + cbn. repeat split; auto; discriminate.
Qed.

Lemma refreshHealth_flags_witness :
  let st := set_connected true init in
  let r := Resolved (VObj [(u "cdpConnected", VBool true)]) in
  connected (fst (refreshHealth_resume r st)) = true /\
  connected st = true /\
  connected (fst (refreshHealth_resume r init)) = false.
Proof.
  intros st r. split; [reflexivity|]. split.
  - apply (proj1 (refreshHealth_flags r st)). reflexivity.
  - reflexivity.
Defined.

(** ** Command line *)

Lemma indexOf_none (x : jsstring) (args : list jsstring) :
  ~ In x args -> indexOf x args = None.
Proof.
  induction args as [|a args IH]; intros H; cbn [indexOf]; auto.
  destruct (str_eqb a x) eqn:E.
  - apply str_eqb_eq in E. exfalso. apply H. left; exact E.
  - rewrite IH; [reflexivity|]. intros Hin. apply H. right; exact Hin.
Qed.

Lemma indexOf_first (x : jsstring) (pre rest : list jsstring) :
  ~ In x pre -> indexOf x (pre ++ x :: rest) = Some (List.length pre).
Proof.
  induction pre as [|a pre IH]; intros H; cbn [app indexOf List.length].
  - rewrite str_eqb_refl. reflexivity.
  - destruct (str_eqb a x) eqn:E.
    + apply str_eqb_eq in E. exfalso. apply H. left; exact E.
    + rewrite IH; [reflexivity|]. intros Hin. apply H. right; exact Hin.
Qed.

Lemma nth_after (pre : list jsstring) (x : jsstring) (rest : list jsstring) :
  nth_error (pre ++ x :: rest) (S (List.length pre)) = nth_error rest 0.
Proof. induction pre as [|a pre IH]; cbn in *; auto. Qed.

(** X11. [getArg] reads the argument right after the first [--name]: it
    gives the default when the flag is absent, when the flag is the last
    argument, and when the next argument is empty; otherwise it gives the
    next argument whatever it is (also another flag), and later occurrences
    of the flag are not looked at. [hasFlag] holds exactly when the flag is
    among the arguments. *)
Theorem getArg_value (args : list jsstring) (name def : jsstring) :
  (~ In (flag name) args -> getArg args name def = def) /\
  (forall pre, args = pre ++ [flag name] -> ~ In (flag name) pre ->
               getArg args name def = def) /\
  (forall pre post, args = pre ++ flag name :: [] :: post ->
                    ~ In (flag name) pre -> getArg args name def = def) /\
  (forall pre v post, args = pre ++ flag name :: v :: post ->
                      ~ In (flag name) pre -> v <> [] ->
                      getArg args name def = v) /\
  (hasFlag args name = true <-> In (flag name) args).
Proof.
  unfold getArg. repeat split.
  - intros H. rewrite (@indexOf_none _ _ H). reflexivity.
  - intros pre -> H. rewrite (@indexOf_first _ _ _ H), nth_after.
    reflexivity.
  - intros pre post -> H. rewrite (@indexOf_first _ _ _ H), nth_after.
    reflexivity.
  - intros pre v post -> H Hv.
    rewrite (@indexOf_first _ _ _ H), nth_after. cbn [nth_error].
    destruct v; [congruence | reflexivity].
  - unfold hasFlag. rewrite existsb_exists.
    intros (a & Ha & E). apply str_eqb_eq in E. subst a. exact Ha.
  - unfold hasFlag. rewrite existsb_exists.
    intros H. exists (flag name). split; [exact H | apply str_eqb_refl].
Qed.

Lemma getArg_value_witness :
  let args := [u "--host"; u "--port"; u "8080"; u "--host"; u "example"] in
  getArg args (u "host") (u "localhost") = u "--port" /\
  getArg args (u "port") (u "3000") = u "8080" /\
  getArg args (u "https") (u "no") = u "no".
Proof.
  intros args. split; [|split].
  - apply (proj1 (proj2 (proj2 (proj2
             (getArg_value args (u "host") (u "localhost")))))
             [] (u "--port") [u "8080"; u "--host"; u "example"]).
    + reflexivity.
    + intros [].
    + discriminate.
  - reflexivity.
  - apply (proj1 (getArg_value args (u "https") (u "no"))).
    vm_compute. intuition discriminate.
Defined.

(** ** The model picker *)

Lemma models_known (idx : nat) (m : jsstring) :
  nth_error models idx = Some m -> known (VStr m).
Proof.
  unfold models.
  do 6 (destruct idx as [|idx];
        [intros [= <-]; split; [reflexivity | discriminate]|]).
  destruct idx; discriminate.
Qed.

(** X12. Selecting entry [idx] of the picker: within the list, the handler
    posts the model of that entry to [/set-model] and, on any resolved
    reply, whatever its body (also [success: false]), sets [currentModel] to
    it, a present value other than [Unknown]; on a rejected request the
    state stays as it was. Beyond the list the model is [undefined], and a
    resolved reply leaves [currentModel] undefined. *)
Theorem picker_select_sets_model (idx : nat) (st : state) :
  (idx < List.length models ->
   exists m,
     nth_error models idx = Some m /\
     snd (picker_select idx)
     = Post "/set-model" (VObj [(u "model", VStr m)]) /\
     (forall body,
        picker_select_resume idx (Resolved body) st
        = (set_model (VStr m) st, [MModel (VStr m); MUpdateStatus])) /\
     known (VStr m)) /\
  (List.length models <= idx ->
   forall body,
     currentModel (fst (picker_select_resume idx (Resolved body) st))
     = VUndef) /\
  picker_select_resume idx Rejected st = (st, [MError]).
Proof.
  split; [|split].
  - intros H. apply nth_error_Some in H.
    destruct (nth_error models idx) as [m|] eqn:E; [|congruence].
    exists m. unfold picker_select, picker_select_resume, model_at.
    rewrite E. repeat split; try reflexivity.
    + apply (@models_known idx m E).
    + apply (@models_known idx m E).
  - intros H body. apply nth_error_None in H.
    unfold picker_select_resume, model_at. rewrite H. reflexivity.
  - reflexivity.
Qed.

Lemma picker_select_sets_model_witness :
  2 < List.length models /\
  currentModel
    (fst (picker_select_resume 2
            (Resolved (VObj [(u "success", VBool false)])) init))
  = VStr (u "Gemini 3 Flash").
Proof.
  assert (2 < List.length models) as H by (cbn; lia).
  split; [exact H|].
  destruct (proj1 (picker_select_sets_model 2 init) H)
    as (m & Hm & _ & Hr & _).
  rewrite Hr. cbn in Hm. injection Hm as <-. reflexivity.
Defined.

Lemma marked_item (v : value) (m : jsstring) :
  marked (picker_item v m) = is_model v m.
Proof.
  unfold picker_item. destruct (is_model v m); reflexivity.
Qed.

Lemma models_distinct : NoDup models.
Proof.
  vm_compute. repeat constructor; cbn [In]; intuition discriminate.
Qed.

Lemma one_match (t : jsstring) (ms : list jsstring) :
  NoDup ms ->
  List.length (filter (is_model (VStr t)) ms)
  = if existsb (is_model (VStr t)) ms then 1 else 0.
Proof.
  induction ms as [|m ms IH]; intros Hnd; [reflexivity|].
  inversion Hnd as [|? ? Hnotin Hnd']; subst.
  cbn [filter existsb is_model]. destruct (str_eqb m t) eqn:E.
  - apply str_eqb_eq in E. subst t. cbn [orb List.length]. f_equal.
    rewrite (IH Hnd').
    destruct (existsb (is_model (VStr m)) ms) eqn:Ex; [|reflexivity].
    apply existsb_exists in Ex. destruct Ex as (x & Hx & Hm).
    cbn [is_model] in Hm. apply str_eqb_eq in Hm. subst x. contradiction.
  - cbn [orb]. apply (IH Hnd').
Qed.

(** X13. The picker marks the current model and nothing else: the list has
    one item per model, in order; the marked items are those of the models
    equal to [currentModel], which is exactly one item when [currentModel]
    is one of the models and none otherwise (as at start, with [Unknown]). *)
Theorem picker_marks_current (st : state) :
  List.length (picker_items st) = List.length models /\
  (forall i m, nth_error models i = Some m ->
     exists item, nth_error (picker_items st) i = Some item /\
                  marked item = is_model (currentModel st) m) /\
  List.length (filter marked (picker_items st))
  = (if existsb (is_model (currentModel st)) models then 1 else 0).
Proof.
  unfold picker_items. split; [apply length_map|]. split.
  - intros i m H. exists (picker_item (currentModel st) m). split.
    + rewrite nth_error_map, H. reflexivity.
    + apply marked_item.
  - assert (forall v ms,
              List.length (filter marked (map (picker_item v) ms))
              = List.length (filter (is_model v) ms)) as Hc.
    { intros v ms. induction ms as [|m ms IH]; [reflexivity|].
      cbn [map filter]. rewrite marked_item.
      destruct (is_model v m); cbn [List.length]; rewrite IH; reflexivity. }
    rewrite Hc. destruct (currentModel st) as [| |b|z|t|l|l];
      try reflexivity.
    apply one_match, models_distinct.
Qed.

Lemma picker_marks_current_witness :
  let st := set_model (VStr (u "Gemini 3 Flash")) init in
  nth_error models 2 = Some (u "Gemini 3 Flash") /\
  (exists item, nth_error (picker_items st) 2 = Some item /\
                marked item = true) /\
  List.length (filter marked (picker_items init)) = 0.
Proof.
  intros st. split; [reflexivity|]. split.
  - destruct (proj1 (proj2 (picker_marks_current st)) 2
                (u "Gemini 3 Flash") eq_refl) as (item & Hi & Hm).
    exists item. split; [exact Hi|]. rewrite Hm. reflexivity.
  - reflexivity.
Defined.

(** ** Invariants of the client state *)

Lemma switchMode_resume_fields (seen : value) (r : reply) (st : state) :
  let st' := fst (switchMode_resume
                    (if is_str seen "Fast" then u "Planning" else u "Fast")
                    r st) in
  (currentMode st' = currentMode st \/ known (currentMode st')) /\
  currentModel st' = currentModel st /\
  lastChatText st' = lastChatText st /\
  chatContent st' = chatContent st.
Proof.
  cbn zeta. destruct r as [|res]; cbn [switchMode_resume]; auto.
  destruct (prop res "success") as [ok|]; auto.
  destruct (not_false ok).
  - cbn. repeat split; auto. right.
    destruct (is_str seen "Fast"); split; try reflexivity; discriminate.
  - destruct (prop res "error"); auto.
Qed.

Lemma op_fields (o : op) (st : state) :
  in_range o ->
  (currentMode (apply_op o st) = currentMode st \/
   known (currentMode (apply_op o st))) /\
  (currentModel (apply_op o st) = currentModel st \/
   known (currentModel (apply_op o st))).
Proof.
  intros Hr. destruct o as [r|r|r|r|seen r|idx r]; cbn [apply_op].
  - destruct (refreshSnapshot_keeps r st) as (-> & -> & _). auto.
  - destruct (refreshState_mode r st) as [-> | (s & m & _ & _ & K & ->)];
    destruct (refreshState_model r st) as [-> | (s' & m' & _ & _ & K' & ->)];
    auto.
  - destruct r as [|h]; cbn [refreshHealth_resume]; auto.
    destruct (prop h "cdpConnected"); auto.
  - destruct r as [|res]; cbn [sendMessage_resume]; auto.
    destruct (prop res "success") as [ok|]; auto.
    destruct (truthy ok); auto. destruct (prop res "error"); auto.
  - destruct (switchMode_resume_fields seen r st) as (H & -> & _). auto.
  - cbn [in_range] in Hr. apply nth_error_Some in Hr.
    destruct r; cbn [picker_select_resume]; auto.
    unfold model_at. destruct (nth_error models idx) as [m|] eqn:E;
      [|congruence].
    cbn. split; auto. right. apply (@models_known idx m E).
Qed.



Lemma keep_field (v v' : value) :
  v' = v \/ known v' ->
  (truthy v = true -> truthy v' = true) /\ (known v -> known v').
Proof.
  intros [-> | K]; [auto|]. split; intros _; [apply K | exact K].
Qed.

(** X14. Through any sequence of replies to the client's requests
    (snapshot, state and health refreshes, sends, mode switches, model
    selections within the list), in any order, a mode or model that is
    present stays present and one that is known (present and not [Unknown])
    stays known; from the initial state, mode and model are never cleared. *)
Theorem mode_and_model_stay (ops : list op) (st : state) :
  Forall in_range ops ->
  (truthy (currentMode st) = true ->
   truthy (currentMode (run_ops ops st)) = true) /\
  (truthy (currentModel st) = true ->
   truthy (currentModel (run_ops ops st)) = true) /\
  (known (currentMode st) -> known (currentMode (run_ops ops st))) /\
  (known (currentModel st) -> known (currentModel (run_ops ops st))) /\
  truthy (currentMode (run_ops ops init)) = true /\
  truthy (currentModel (run_ops ops init)) = true.
Proof.
  intros Hr.
  assert (forall s,
    (truthy (currentMode s) = true ->
     truthy (currentMode (run_ops ops s)) = true) /\
    (truthy (currentModel s) = true ->
     truthy (currentModel (run_ops ops s)) = true) /\
    (known (currentMode s) -> known (currentMode (run_ops ops s))) /\
    (known (currentModel s) -> known (currentModel (run_ops ops s)))) as H.
  { induction Hr as [|o ops Ho Hops IH]; intros s; [cbn; auto|].
    cbn [run_ops fold_left]. fold (run_ops ops (apply_op o s)).
    destruct (IH (apply_op o s)) as (I1 & I2 & I3 & I4).
    destruct (@op_fields o s Ho) as [Hm Hl].
    destruct (keep_field Hm) as [M1 M2].
    destruct (keep_field Hl) as [L1 L2].
    split; [|split; [|split]]; auto. }
  destruct (H st) as (H1 & H2 & H3 & H4).
  destruct (H init) as (J1 & J2 & _ & _).
  split; [|split; [|split; [|split; [|split]]]]; auto.
Qed.

Lemma mode_and_model_stay_witness :
  let ops := [OpSwitch (VStr (u "Unknown")) (Resolved (VObj []));
              OpState (Resolved (VObj [(u "mode", VStr (u "Unknown"))]));
              OpSelect 4 (Resolved VNull);
              OpSnapshot Rejected] in
  Forall in_range ops /\
  currentMode (run_ops ops init) = VStr (u "Fast") /\
  known (currentMode (run_ops ops (set_mode (VStr (u "Planning")) init))).
Proof.
  intros ops.
  assert (Forall in_range ops) as Hr.
  { repeat constructor. }
  split; [exact Hr|]. split; [reflexivity|].
  apply (proj1 (proj2 (proj2 (@mode_and_model_stay ops _ Hr)))).
  split; [reflexivity | discriminate].
Defined.

